(** * remote/endpoint_writer.go: the outbound endpoint writer

    A shallow embedding of the endpoint writer actor of the remoting
    layer (connect handshake, inbound liveness loop, envelope assembly
    with interning tables, message dispatch) and the properties of it that
    the specification states.

    Conventions.
    - Go [int32]/[uint32] values are [Z]; the conversion [int32(len(m))]
      and the addition [id + 1] wrap, written [int32 _].
    - Go maps are [gmap]s, slices are lists; a map or slice that the Go
      code mutates through a reference is returned by the embedded
      function next to its result.
    - A nil pointer or nil interface is [None].
    - The transport (gRPC) is an oracle indexed by the number of transport
      calls already made; every call and its result is recorded in a trace.
    - [panic] is an outcome of the error monad [M]; logging is not
      modelled, it has no effect on the state or on the wire. *)

From Stdlib Require Import ZArith Ascii.
From stdpp Require Import gmap strings list fin_maps.

(** ** Wire data *)

(** [int32(z)]: two's complement wrap-around to 32 bits. *)
Definition int32 (z : Z) : Z := ((z + 2 ^ 31) `mod` 2 ^ 32 - 2 ^ 31)%Z.

(** [actor.PID]: the fields the writer reads. *)
Record PID := mkPID { Address : string; Id : string; RequestId : Z }.

(** [MessageHeader{HeaderData: map[string]string}] *)
Record MessageHeader := mkHeader { HeaderData : gmap string string }.

Record MessageEnvelope := mkEnvelope {
  EnvMessageHeader : option MessageHeader;
  MessageData : list Byte.byte;
  Sender : Z;
  Target : Z;
  TypeId : Z;
  SerializerId : Z;
  TargetRequestId : Z;
  SenderRequestId : Z
}.

(** [Envelopes] is a slice of pointers allocated with [make]: a slot that
    was never assigned holds nil. *)
Record MessageBatch := mkBatch {
  TypeNames : list string;
  Targets : list PID;
  Senders : list PID;
  Envelopes : list (option MessageEnvelope)
}.

(** [RemoteMessage.MessageType]: the variants the writer builds or
    inspects; everything else (another variant, or an unset one) is
    [RemoteMessage_Other]. *)
Inductive RemoteMessage :=
| RemoteMessage_ConnectRequest (SystemId : string) (ServerAddress : string)
| RemoteMessage_ConnectResponse
| RemoteMessage_MessageBatch (b : MessageBatch)
| RemoteMessage_Other.

(** Go [error] values: [io.EOF], an opaque error, and an error wrapping
    another one. *)
Inductive error :=
| io_EOF
| errors_New (text : string)
| wrapError (text : string) (cause : error).

(** [errors.Is(err, io.EOF)] for an [err] that may be nil. *)
Fixpoint unwraps_to_EOF (e : error) : bool :=
  match e with
  | io_EOF => true
  | errors_New _ => false
  | wrapError _ cause => unwraps_to_EOF cause
  end.

Definition errors_Is_EOF (err : option error) : bool :=
  match err with
  | Some e => unwraps_to_EOF e
  | None => false
  end.

(** The events published on the event stream. *)
Inductive LifecycleEvent :=
| EndpointConnectedEvent (address : string)
| EndpointTerminatedEvent (address : string).

(** ** Interning tables *)

(** [addToLookup]: the id, the slice, and the (mutated) map. *)
Definition addToLookup (m : gmap string Z) (name : string) (a : list string)
  : Z * list string * gmap string Z :=
  let max := int32 (Z.of_nat (size m)) in
  match m !! name with
  | Some id => (id, a, m)
  | None => (max, a ++ [name], <[name := max]> m)
  end.

(** The map key of a PID: [pid.Address + "/" + pid.Id]. *)
Definition pidKey (pid : PID) : string := Address pid +:+ "/" +:+ Id pid.

(** [proto.Clone(pid)] followed by [c.RequestId = 0]. *)
Definition cloneStripped (pid : PID) : PID :=
  {| Address := Address pid; Id := Id pid; RequestId := 0 |}.

(** [addToPidLookup]: the index, the slice, and the (mutated) map. *)
Definition addToPidLookup (m : gmap string Z) (pid : option PID) (arr : list PID)
  : Z * list PID * gmap string Z :=
  match pid with
  | None => (0%Z, arr, m)
  | Some p =>
      let max := int32 (Z.of_nat (size m)) in
      let key := pidKey p in
      match m !! key with
      | Some id => (int32 (id + 1), arr, m)
      | None => (int32 (max + 1), arr ++ [cloneStripped p], <[key := max]> m)
      end
  end.

(** ** The inbound liveness loop (the goroutine of [initializeInternal]) *)

(** One [stream.Recv()]: a message with a nil error, or an error. *)
Inductive RecvResult :=
| RecvMsg (m : RemoteMessage)
| RecvErr (e : error).

Definition recvError (r : RecvResult) : option error :=
  match r with
  | RecvMsg _ => None
  | RecvErr e => Some e
  end.

(** What a loop body does to the enclosing [for]. *)
Inductive Control := NextIteration | ReturnFromLoop.

(** The body of the [for]: the events it publishes and what happens to the
    loop.  The [break] of the first case leaves the [switch] only, so the
    [for] goes on to its next iteration. *)
Definition monitorBody (address : string) (r : RecvResult)
  : list LifecycleEvent * Control :=
  if errors_Is_EOF (recvError r) then ([], NextIteration)
  else match recvError r with
       | Some _ => ([EndpointTerminatedEvent address], ReturnFromLoop)
       | None => ([EndpointTerminatedEvent address], NextIteration)
       end.

(** Where the goroutine is once the given reads have been served. *)
Inductive LoopStatus := Exited | BlockedInRecv.

(** The loop run against the results of its successive reads. *)
Fixpoint monitorLoop (address : string) (reads : list RecvResult)
  : list LifecycleEvent * LoopStatus :=
  match reads with
  | [] => ([], BlockedInRecv)
  | r :: rest =>
      match monitorBody address r with
      | (evs, ReturnFromLoop) => (evs, Exited)
      | (evs, NextIteration) =>
          let '(evs', st) := monitorLoop address rest in (evs ++ evs', st)
      end
  end.

(** ** The actor: state, effects, and the monad of its handlers *)

(** [remote.actorSystem]: the identity sent in the connect request. *)
Record Remote := mkRemote { actorSystem_ID : string; actorSystem_Address : string }.

(** [endpointWriter]: [conn] and [stream] are nil until assigned; a live
    handle is named by the number of the transport call that made it.
    [config] only carries dial and call options, passed through opaquely. *)
Record endpointWriter := mkWriter {
  address : string;
  conn : option nat;
  stream : option nat;
  remote : Remote
}.

(** [endpointWriterProducer]: a fresh writer, nothing connected. *)
Definition endpointWriterProducer (r : Remote) (addr : string) : endpointWriter :=
  {| address := addr; conn := None; stream := None; remote := r |}.

(** The transport: the result of each call, by the number of transport
    calls made before it. *)
Record Transport := mkTransport {
  grpc_Dial : nat -> option error;
  client_Receive : nat -> option error;
  stream_Send : nat -> option error;
  stream_Recv : nat -> RecvResult;
  stream_CloseSend : nat -> option error;
  conn_Close : nat -> option error
}.

Inductive PanicValue :=
| PanicError (e : error)
| PanicString (s : string)
| PanicNilDereference.

Inductive Outcome (A : Type) :=
| Returned (a : A)
| Panicked (p : PanicValue).
Arguments Returned {A} a.
Arguments Panicked {A} p.

Section Writer.

(** The payload of a delivery is an arbitrary Go value; [Serialize] is the
    serializer registry of the package: bytes and a type name, or an
    error. *)
Context {payload : Type}.
Variable Serialize : payload -> Z -> (list Byte.byte * string) + error.

(** [remoteDeliver]: [header] is a nil-able read-only header (a map),
    [target] and [sender] are nil-able PIDs. *)
Record remoteDeliver := mkDeliver {
  header : option (gmap string string);
  message : payload;
  target : option PID;
  sender : option PID
}.

(** An element of a batch ([interface{}]) by its dynamic type: an
    [EndpointTerminatedEvent] (pointer or value), a [*remoteDeliver], or
    anything else, for which the type assertion to a [remoteDeliver]
    pointer yields nil. *)
Inductive BatchItem :=
| ItemTerminated (addr : string)
| ItemDeliver (rd : remoteDeliver)
| ItemOther.

(** [ctx.Message()] by the cases of the type switch of [Receive]. *)
Inductive Message :=
| actor_Started
| actor_Stopped
| actor_Restarting
| TerminatedMessage (addr : string)
| Batch (msg : list BatchItem)
| SystemOrAutoReceive
| UnknownMessage.

(** [actor.Context]: the message being handled and the actor's own PID. *)
Record Context := mkContext { ctx_Message : Message; ctx_Self : PID }.

(** What the handlers do to the outside world, in order. *)
Inductive Effect :=
| EvDial (addr : string) (r : option error)
| EvOpenStream (c : nat) (r : option error)
| EvSend (s : nat) (m : RemoteMessage) (r : option error)
| EvRecv (s : nat) (r : RecvResult)
| EvSpawnMonitor (s : nat)
| EvPublish (e : LifecycleEvent)
| EvStop (pid : PID)
| EvStash (m : Message)
| EvSleep (seconds : Z)
| EvCloseSend (s : nat) (r : option error)
| EvCloseConn (c : nat) (r : option error).

Record Machine := mkMachine {
  ew : endpointWriter;
  calls : nat;
  trace : list Effect
}.

(** A handler: a state transformer that returns or panics. *)
Definition M (A : Type) : Type := Machine -> Machine * Outcome A.

Definition ret {A} (a : A) : M A := fun σ => (σ, Returned a).

Definition bind {A B} (c : M A) (k : A -> M B) : M B :=
  fun σ => match c σ with
           | (σ', Returned a) => k a σ'
           | (σ', Panicked p) => (σ', Panicked p)
           end.

Definition panic {A} (p : PanicValue) : M A := fun σ => (σ, Panicked p).

Notation "'let*' x := c 'in' k" := (bind c (fun x => k))
  (at level 10, x name, c at level 100, k at level 200).
Notation "c >> k" := (bind c (fun _ => k))
  (at level 100, k at level 200, right associativity).

Definition emit (e : Effect) : M unit :=
  fun σ => ({| ew := ew σ; calls := calls σ; trace := trace σ ++ [e] |}, Returned tt).

(** The number of the next transport call; the counter advances. *)
Definition tick : M nat :=
  fun σ => ({| ew := ew σ; calls := S (calls σ); trace := trace σ |}, Returned (calls σ)).

Definition getWriter : M endpointWriter := fun σ => (σ, Returned (ew σ)).

Definition setConn (c : nat) : M unit :=
  fun σ => ({| ew := {| address := address (ew σ); conn := Some c;
                        stream := stream (ew σ); remote := remote (ew σ) |};
               calls := calls σ; trace := trace σ |}, Returned tt).

Definition setStream (s : nat) : M unit :=
  fun σ => ({| ew := {| address := address (ew σ); conn := conn (ew σ);
                        stream := Some s; remote := remote (ew σ) |};
               calls := calls σ; trace := trace σ |}, Returned tt).

Variable T : Transport.

(** [stream.Send(m)] on the stream [s]. *)
Definition doSend (s : nat) (m : RemoteMessage) : M (option error) :=
  let* n := tick in
  emit (EvSend s m (stream_Send T n)) >>
  ret (stream_Send T n).

(** [stream.Recv()] on the stream [s]. *)
Definition doRecv (s : nat) : M RecvResult :=
  let* n := tick in
  emit (EvRecv s (stream_Recv T n)) >>
  ret (stream_Recv T n).

(** [initializeInternal]: the returned error, nil on success. *)
Definition initializeInternal : M (option error) :=
  let* state := getWriter in
  let* c := tick in
  emit (EvDial (address state) (grpc_Dial T c)) >>
  match grpc_Dial T c with
  | Some err => ret (Some err)
  | None =>
      setConn c >>
      let* s := tick in
      emit (EvOpenStream c (client_Receive T s)) >>
      match client_Receive T s with
      | Some err => ret (Some err)
      | None =>
          setStream s >>
          let* err := doSend s (RemoteMessage_ConnectRequest
                            (actorSystem_ID (remote state))
                            (actorSystem_Address (remote state))) in
          match err with
          | Some err => ret (Some err)
          | None =>
              let* r := doRecv s in
              match r with
              | RecvErr err => ret (Some err)
              | RecvMsg RemoteMessage_ConnectResponse =>
                  emit (EvSpawnMonitor s) >>
                  emit (EvPublish (EndpointConnectedEvent (address state))) >>
                  setStream s >>
                  ret None
              | RecvMsg _ => ret (Some (errors_New "invalid connect response"))
              end
          end
      end
  end.

(** [initialize]: sleep two seconds and panic when the connect fails. *)
Definition initialize : M unit :=
  let* err := initializeInternal in
  match err with
  | Some err => emit (EvSleep 2) >> panic (PanicError err)
  | None => ret tt
  end.

(** The local variables of [sendEnvelopes] that the loop updates. *)
Record LoopState := mkLoop {
  typeNames : gmap string Z;
  typeNamesArr : list string;
  targetNames : gmap string Z;
  targetNamesArr : list PID;
  senderNames : gmap string Z;
  senderNamesArr : list PID;
  envelopes : list (option MessageEnvelope)
}.

(** The locals before the loop: [envelopes] has [len(msg)] nil slots. *)
Definition initialLoopState (n : nat) : LoopState :=
  {| typeNames := ∅; typeNamesArr := [];
     targetNames := ∅; targetNamesArr := [];
     senderNames := ∅; senderNamesArr := [];
     envelopes := replicate n None |}.

(** How the [for ... range msg] ends: it runs to the end, returns early
    after [ctx.Stop], or panics. *)
Inductive LoopResult :=
| LoopDone (s : LoopState)
| LoopStop
| LoopPanic (p : PanicValue).

(** [var serializerID int32]: zero, and never assigned. *)
Definition serializerID : Z := 0.

(** The header of an envelope: nil for a nil or empty header. *)
Definition envelopeHeader (h : option (gmap string string)) : option MessageHeader :=
  match h with
  | None => None
  | Some hm => if decide (size hm = 0) then None else Some {| HeaderData := hm |}
  end.

Definition requestIdOf (pid : option PID) : Z :=
  match pid with
  | Some p => RequestId p
  | None => 0%Z
  end.

(** The body of the loop on a delivery whose payload serialized. *)
Definition deliverStep (i : nat) (rd : remoteDeliver) (bytes : list Byte.byte)
    (typeName : string) (s : LoopState) : LoopState :=
  let '(typeID, typeNamesArr', typeNames') :=
    addToLookup (typeNames s) typeName (typeNamesArr s) in
  let '(targetID, targetNamesArr', targetNames') :=
    addToPidLookup (targetNames s) (target rd) (targetNamesArr s) in
  let '(senderID, senderNamesArr', senderNames') :=
    addToPidLookup (senderNames s) (sender rd) (senderNamesArr s) in
  {| typeNames := typeNames'; typeNamesArr := typeNamesArr';
     targetNames := targetNames'; targetNamesArr := targetNamesArr';
     senderNames := senderNames'; senderNamesArr := senderNamesArr';
     envelopes :=
       <[i := Some {| EnvMessageHeader := envelopeHeader (header rd);
                      MessageData := bytes;
                      Sender := senderID;
                      Target := targetID;
                      TypeId := typeID;
                      SerializerId := serializerID;
                      TargetRequestId := requestIdOf (target rd);
                      SenderRequestId := requestIdOf (sender rd) |}]>
         (envelopes s) |}.

(** [for i, tmp := range msg], from index [i] on the rest of the slice.
    The index stays below [len(msg)], so the slot assignment is in range. *)
Fixpoint envelopeLoop (i : nat) (msg : list BatchItem) (s : LoopState) : LoopResult :=
  match msg with
  | [] => LoopDone s
  | ItemTerminated _ :: _ => LoopStop
  | ItemOther :: _ => LoopPanic PanicNilDereference
  | ItemDeliver rd :: rest =>
      match Serialize (message rd) serializerID with
      | inr err => LoopPanic (PanicError err)
      | inl (bytes, typeName) =>
          envelopeLoop (S i) rest (deliverStep i rd bytes typeName s)
      end
  end.

Definition batchOf (s : LoopState) : MessageBatch :=
  {| TypeNames := typeNamesArr s; Targets := targetNamesArr s;
     Senders := senderNamesArr s; Envelopes := envelopes s |}.

(** The first part of [sendEnvelopes]: the declarations and the loop. *)
Definition assemble (msg : list BatchItem) : LoopResult :=
  envelopeLoop 0 msg (initialLoopState (length msg)).

(** [sendEnvelopes].  A send on a nil [state.stream] is a nil
    dereference. *)
Definition sendEnvelopes (msg : list BatchItem) (ctx : Context) : M unit :=
  match assemble msg with
  | LoopStop => emit (EvStop (ctx_Self ctx))
  | LoopPanic p => panic p
  | LoopDone s =>
      let* state := getWriter in
      match stream state with
      | None => panic PanicNilDereference
      | Some st =>
          let* err := doSend st (RemoteMessage_MessageBatch (batchOf s)) in
          match err with
          | Some _ => emit (EvStash (ctx_Message ctx)) >> panic (PanicString "restart it")
          | None => ret tt
          end
      end
  end.

(** [closeClientConn]: both closes are attempted, errors are only logged. *)
Definition closeClientConn : M unit :=
  let* state := getWriter in
  match stream state with
  | Some s => let* n := tick in emit (EvCloseSend s (stream_CloseSend T n))
  | None => ret tt
  end >>
  match conn state with
  | Some c => let* n := tick in emit (EvCloseConn c (conn_Close T n))
  | None => ret tt
  end.

(** [Receive]: the type switch on [ctx.Message()]. *)
Definition Receive (ctx : Context) : M unit :=
  match ctx_Message ctx with
  | actor_Started => initialize
  | actor_Stopped => closeClientConn
  | actor_Restarting => closeClientConn
  | TerminatedMessage _ => emit (EvStop (ctx_Self ctx))
  | Batch msg => sendEnvelopes msg ctx
  | SystemOrAutoReceive => ret tt
  | UnknownMessage => ret tt
  end.

(** One incarnation of the actor handling its messages in order.  A panic
    ends the incarnation: the handler does not return, and what the
    supervisor does next is outside this file. *)
Fixpoint runActor (self : PID) (msgs : list Message) : M unit :=
  match msgs with
  | [] => ret tt
  | m :: rest => Receive {| ctx_Message := m; ctx_Self := self |} >> runActor self rest
  end.

(** The machine of a writer just made by the producer. *)
Definition freshMachine (r : Remote) (addr : string) : Machine :=
  {| ew := endpointWriterProducer r addr; calls := 0; trace := [] |}.

End Writer.

Arguments remoteDeliver : clear implicits.
Arguments BatchItem : clear implicits.
Arguments Message : clear implicits.
Arguments Context : clear implicits.
Arguments Effect : clear implicits.
Arguments Machine : clear implicits.
Arguments M : clear implicits.
Arguments LoopResult : clear implicits.

(** ** Reference definitions for the statements *)

(** The distinct elements of a list, each at its first occurrence. *)
Fixpoint firstSeen (l : list string) : list string :=
  match l with
  | [] => []
  | x :: rest => x :: filter (λ y, y ≠ x) (firstSeen rest)
  end.

(** The identity of a PID: the request id is not part of it. *)
Definition identity (pid : PID) : string * string := (Address pid, Id pid).

Fixpoint hasSlash (s : string) : bool :=
  match s with
  | EmptyString => false
  | String c rest => if Ascii.eqb c "/"%char then true else hasSlash rest
  end.

(** A map and its slice of keys agree: the keys are distinct and the map
    sends the key at position [k] to [int32 k]. *)
Definition tableInv (m : gmap string Z) (ks : list string) : Prop :=
  size m = length ks ∧ NoDup ks ∧
  ∀ key id, m !! key = Some id ↔ ∃ k, ks !! k = Some key ∧ id = int32 (Z.of_nat k).

(** A PID table built from the references [pids]: keyed by [pidKey], every
    entry is the stripped clone of a reference, every reference's key is
    present. *)
Definition pidTableInv (pids : list (option PID)) (m : gmap string Z) (arr : list PID) : Prop :=
  tableInv m (pidKey <$> arr) ∧
  length arr ≤ length pids ∧
  (∀ c, c ∈ arr → ∃ p, Some p ∈ pids ∧ c = cloneStripped p) ∧
  (∀ p, Some p ∈ pids → pidKey p ∈ pidKey <$> arr).

(** The index [idx] written for the reference [pid] against the table
    [arr]: 0 for nil, else one more than the position of the entry with
    the reference's key. *)
Definition pidResolves (arr : list PID) (pid : option PID) (idx : Z) : Prop :=
  match pid with
  | None => idx = 0%Z
  | Some p => ∃ k c, arr !! k = Some c ∧ pidKey c = pidKey p ∧
                     idx = int32 (int32 (Z.of_nat k) + 1)
  end.

(** No two references of the list share a key while differing in their
    identity. *)
Definition keysDistinguish (pids : list (option PID)) : Prop :=
  ∀ p q, Some p ∈ pids → Some q ∈ pids → pidKey p = pidKey q → identity p = identity q.

(** The index written for a reference follows the offset convention: 0
    for nil, else nonzero and one more than the position of the
    reference's stripped clone. *)
Definition offsetIndex (table : list PID) (pid : option PID) (idx : Z) : Prop :=
  match pid with
  | None => idx = 0%Z
  | Some p => idx ≠ 0%Z ∧
              ∃ k, table !! k = Some (cloneStripped p) ∧ idx = (Z.of_nat k + 1)%Z
  end.

(** The same convention read through the map key: 0 for nil, else nonzero
    and one more than a position of the table whose entry has the key of
    the reference and no request id. *)
Definition offsetKeyIndex (table : list PID) (pid : option PID) (idx : Z) : Prop :=
  match pid with
  | None => idx = 0%Z
  | Some p => idx ≠ 0%Z ∧
              ∃ k c, table !! k = Some c ∧ idx = (Z.of_nat k + 1)%Z ∧
                     pidKey c = pidKey p ∧ RequestId c = 0%Z
  end.

(** The table holds each identity of the references once, stripped of its
    request id, and nothing else. *)
Definition internedTable (pids : list (option PID)) (table : list PID) : Prop :=
  NoDup (identity <$> table) ∧
  (∀ c, c ∈ table → RequestId c = 0%Z) ∧
  ∀ c, c ∈ table ↔ ∃ p, Some p ∈ pids ∧ c = cloneStripped p.

(** The four transport calls of a connect that starts as call [n] all
    succeed, the last with a connect response. *)
Definition handshakeOK (T : Transport) (n : nat) : Prop :=
  grpc_Dial T n = None ∧
  client_Receive T (S n) = None ∧
  stream_Send T (S (S n)) = None ∧
  stream_Recv T (S (S (S n))) = RecvMsg RemoteMessage_ConnectResponse.

(** The effects of a connect that succeeds. *)
Definition connectEffects {payload : Type} (w : endpointWriter) (n : nat)
  : list (Effect payload) :=
  [EvDial (address w) None;
   EvOpenStream n None;
   EvSend (S n) (RemoteMessage_ConnectRequest (actorSystem_ID (remote w))
                   (actorSystem_Address (remote w))) None;
   EvRecv (S n) (RecvMsg RemoteMessage_ConnectResponse);
   EvSpawnMonitor (S n);
   EvPublish (EndpointConnectedEvent (address w))].

Definition isBatchSend {payload : Type} (e : Effect payload) : bool :=
  match e with
  | EvSend _ (RemoteMessage_MessageBatch _) _ => true
  | _ => false
  end.

Definition isConnectedOrSpawn {payload : Type} (e : Effect payload) : bool :=
  match e with
  | EvPublish (EndpointConnectedEvent _) => true
  | EvSpawnMonitor _ => true
  | _ => false
  end.

(** Every batch sent on a stream comes after a connect response received
    on that stream. *)
Definition gated {payload : Type} (tr : list (Effect payload)) : Prop :=
  ∀ i s b r, tr !! i = Some (EvSend s (RemoteMessage_MessageBatch b) r) →
    ∃ j, j < i ∧ tr !! j = Some (EvRecv s (RecvMsg RemoteMessage_ConnectResponse)).

Definition handshaken {payload : Type} (tr : list (Effect payload)) (s : nat) : Prop :=
  ∃ j, tr !! j = Some (EvRecv s (RecvMsg RemoteMessage_ConnectResponse)).

Section Statements.

Context {payload : Type}.
Variable Serialize : payload → Z → (list Byte.byte * string) + error.

(** The serialization the loop performs for a delivery. *)
Definition serialized (rd : remoteDeliver payload) : (list Byte.byte * string) + error :=
  Serialize (message rd) serializerID.

Definition serializes (rd : remoteDeliver payload) : Prop :=
  ∃ r, serialized rd = inl r.

Definition typeNameOf (rd : remoteDeliver payload) : option string :=
  match serialized rd with
  | inl (_, typeName) => Some typeName
  | inr _ => None
  end.

(** The envelope [e] is the one built from the delivery [rd], read against
    the three tables. *)
Definition builtFrom (names : list string) (targets senders : list PID)
    (rd : remoteDeliver payload) (e : MessageEnvelope) : Prop :=
  (∃ typeName k, serialized rd = inl (MessageData e, typeName) ∧
                 names !! k = Some typeName ∧ TypeId e = int32 (Z.of_nat k)) ∧
  pidResolves targets (target rd) (Target e) ∧
  pidResolves senders (sender rd) (Sender e) ∧
  TargetRequestId e = requestIdOf (target rd) ∧
  SenderRequestId e = requestIdOf (sender rd) ∧
  SerializerId e = 0%Z ∧
  EnvMessageHeader e = envelopeHeader (header rd).

(** The state of the loop once the deliveries [done] have been handled, in
    a batch of [n] elements. *)
Definition loopInv (n : nat) (done : list (remoteDeliver payload)) (s : LoopState) : Prop :=
  tableInv (typeNames s) (typeNamesArr s) ∧
  typeNamesArr s = firstSeen (omap typeNameOf done) ∧
  pidTableInv (target <$> done) (targetNames s) (targetNamesArr s) ∧
  pidTableInv (sender <$> done) (senderNames s) (senderNamesArr s) ∧
  length (envelopes s) = n ∧
  ∀ i rd, done !! i = Some rd →
    ∃ e, envelopes s !! i = Some (Some e) ∧
         builtFrom (typeNamesArr s) (targetNamesArr s) (senderNamesArr s) rd e.

(** Every envelope's index for the reference [ref] of its delivery leads,
    after the offset, to that reference in the table. *)
Definition indicesResolve (ref : remoteDeliver payload → option PID)
    (idx : MessageEnvelope → Z) (table : list PID)
    (rds : list (remoteDeliver payload)) (envs : list (option MessageEnvelope)) : Prop :=
  ∀ i rd e, rds !! i = Some rd → envs !! i = Some (Some e) →
    offsetIndex table (ref rd) (idx e).

(** The machine after the effects [evs] and [n] more transport calls. *)
Definition after (σ : Machine payload) (n : nat) (evs : list (Effect payload)) : Machine payload :=
  {| ew := ew σ; calls := n + calls σ; trace := trace σ ++ evs |}.

(** What holds of the machine between two messages. *)
Definition ready (σ : Machine payload) : Prop :=
  gated (trace σ) ∧ ∀ s, stream (ew σ) = Some s → handshaken (trace σ) s.

End Statements.

(** ** Concrete inputs *)

(** An example registry: a payload is a string naming its own type; only
    serializer 0 is registered, and the payload "chan" is not a protobuf
    message. *)
Definition exampleSerialize (m : string) (id : Z) : (list Byte.byte * string) + error :=
  if decide (id = 0%Z) then
    if decide (m = "chan") then inr (errors_New "msg must be proto.Message")
    else inl ([], m)
  else inr (errors_New "unknown serializer").

Definition exampleDeliver (m : string) (t s : option PID) : remoteDeliver string :=
  {| header := None; message := m; target := t; sender := s |}.

(** Scenario A and B of the specification, then a second type name. *)
Definition exampleDeliveries : list (remoteDeliver string) :=
  [exampleDeliver "Ping" (Some (mkPID "10.0.0.2:8090" "T1" 5)) (Some (mkPID "10.0.0.1:8090" "S1" 0));
   exampleDeliver "Ping" (Some (mkPID "10.0.0.2:8090" "T1" 9)) (Some (mkPID "10.0.0.1:8090" "S1" 0));
   exampleDeliver "Pong" (Some (mkPID "10.0.0.2:8090" "T2" 0)) None].

(** A batch for the writer of ["10.0.0.2:8090"]: both deliveries go to
    the same target, and their senders are two different actors (an
    address is a dial target, here two socket paths) with the same key
    ["unix:///run/actors/node1/echo"]. *)
Definition collidingDeliveries : list (remoteDeliver string) :=
  [exampleDeliver "Ping" (Some (mkPID "10.0.0.2:8090" "T1" 0))
     (Some (mkPID "unix:///run/actors" "node1/echo" 1));
   exampleDeliver "Ping" (Some (mkPID "10.0.0.2:8090" "T1" 0))
     (Some (mkPID "unix:///run/actors/node1" "echo" 2))].

(** A transport on which everything succeeds. *)
Definition okTransport : Transport :=
  {| grpc_Dial := λ _, None; client_Receive := λ _, None; stream_Send := λ _, None;
     stream_Recv := λ _, RecvMsg RemoteMessage_ConnectResponse;
     stream_CloseSend := λ _, None; conn_Close := λ _, None |}.

(** A peer that answers the connect request with another variant. *)
Definition wrongVariantTransport : Transport :=
  {| grpc_Dial := λ _, None; client_Receive := λ _, None; stream_Send := λ _, None;
     stream_Recv := λ _, RecvMsg RemoteMessage_Other;
     stream_CloseSend := λ _, None; conn_Close := λ _, None |}.

(** A transport that connects and then rejects every send. *)
Definition brokenSendTransport : Transport :=
  {| grpc_Dial := λ _, None; client_Receive := λ _, None;
     stream_Send := λ n, if decide (n < 4) then None
                         else Some (errors_New "transport is closing");
     stream_Recv := λ _, RecvMsg RemoteMessage_ConnectResponse;
     stream_CloseSend := λ _, None; conn_Close := λ _, None |}.

Definition exampleRemote : Remote :=
  {| actorSystem_ID := "system-1"; actorSystem_Address := "10.0.0.1:8090" |}.

Definition exampleSelf : PID := mkPID "10.0.0.1:8090" "endpointwriter" 0.

(** A writer connected on stream 1, four transport calls made. *)
Definition connectedMachine : Machine string :=
  {| ew := {| address := "10.0.0.2:8090"; conn := Some 0; stream := Some 1;
              remote := exampleRemote |};
     calls := 4; trace := [] |}.

(** ** Further reference definitions *)

(** A read that ends the liveness loop: an error that is not end-of-file. *)
Definition isFatalRead (r : RecvResult) : bool :=
  match r with
  | RecvErr e => negb (unwraps_to_EOF e)
  | RecvMsg _ => false
  end.

(** The number of reads that returned a message. *)
Fixpoint countMessages (reads : list RecvResult) : nat :=
  match reads with
  | [] => 0
  | RecvMsg _ :: rest => S (countMessages rest)
  | RecvErr _ :: rest => countMessages rest
  end.

(** What [closeClientConn] does on a machine: the stream's send side
    first, if there is a stream, then the connection, if there is one. *)
Definition closeEffects {payload : Type} (T : Transport) (σ : Machine payload)
  : list (Effect payload) :=
  match stream (ew σ), conn (ew σ) with
  | Some s, Some c => [EvCloseSend s (stream_CloseSend T (calls σ));
                       EvCloseConn c (conn_Close T (S (calls σ)))]
  | Some s, None => [EvCloseSend s (stream_CloseSend T (calls σ))]
  | None, Some c => [EvCloseConn c (conn_Close T (calls σ))]
  | None, None => []
  end.

(** An effect of the connect sequence before its last two steps: a dial,
    a stream opening, the send of the connect request, or a read. *)
Definition isConnectCall {payload : Type} (e : Effect payload) : bool :=
  match e with
  | EvDial _ _ => true
  | EvOpenStream _ _ => true
  | EvSend _ (RemoteMessage_ConnectRequest _ _) _ => true
  | EvRecv _ _ => true
  | _ => false
  end.

(** An effect that, if it publishes, publishes the Connected event of the
    address [addr]. *)
Definition publishesOnlyConnected {payload : Type} (addr : string) (e : Effect payload) : Prop :=
  match e with
  | EvPublish ev => ev = EndpointConnectedEvent addr
  | _ => True
  end.

(** ** Arithmetic and strings *)

Lemma int32_small (z : Z) : (- 2 ^ 31 ≤ z < 2 ^ 31)%Z → int32 z = z.
Proof.
  intros Hz. unfold int32.
  rewrite Z.mod_small; lia.
Qed.

Lemma int32_nat_small (k : nat) : (Z.of_nat k < 2 ^ 31)%Z → int32 (Z.of_nat k) = Z.of_nat k.
Proof. intros Hk. apply int32_small. lia. Qed.

Lemma int32_succ_small (k : nat) :
  (Z.of_nat k + 1 < 2 ^ 31)%Z → int32 (int32 (Z.of_nat k) + 1) = (Z.of_nat k + 1)%Z.
Proof.
  intros Hk. rewrite int32_nat_small by lia. apply int32_small. lia.
Qed.

(** A key determines the identity when the addresses have no slash. *)
Lemma app_slash_inj (a1 a2 i1 i2 : string) :
  hasSlash a1 = false → hasSlash a2 = false →
  a1 +:+ "/" +:+ i1 = a2 +:+ "/" +:+ i2 → a1 = a2 ∧ i1 = i2.
Proof.
  revert a2. induction a1 as [|c a1 IH]; intros [|d a2] H1 H2 Heq; simpl in *.
  - by inversion Heq.
  - inversion Heq; subst. by rewrite Ascii.eqb_refl in H2.
  - inversion Heq; subst. by rewrite Ascii.eqb_refl in H1.
  - inversion Heq; subst.
    destruct (Ascii.eqb d "/"%char); [done|].
    destruct (IH a2 H1 H2) as [-> ->]; done.
Qed.

Lemma pidKey_inj_noSlash (p q : PID) :
  hasSlash (Address p) = false → hasSlash (Address q) = false →
  pidKey p = pidKey q → identity p = identity q.
Proof.
  intros Hp Hq Hk. unfold pidKey in Hk.
  destruct (app_slash_inj _ _ _ _ Hp Hq Hk) as [Ha Hi].
  unfold identity. by rewrite Ha, Hi.
Qed.

Lemma cloneStripped_identity (p q : PID) :
  identity p = identity q → cloneStripped p = cloneStripped q.
Proof. unfold identity, cloneStripped. intros [= -> ->]. done. Qed.

Lemma pidKey_cloneStripped (p : PID) : pidKey (cloneStripped p) = pidKey p.
Proof. done. Qed.

(** ** First-seen order *)

Lemma firstSeen_elem (l : list string) (x : string) : x ∈ firstSeen l ↔ x ∈ l.
Proof.
  induction l as [|y l IH]; simpl; [done|].
  rewrite !elem_of_cons, list_elem_of_filter, IH.
  destruct (decide (x = y)); tauto.
Qed.

Lemma firstSeen_NoDup (l : list string) : NoDup (firstSeen l).
Proof.
  induction l as [|y l IH]; simpl; [constructor|].
  constructor.
  - rewrite list_elem_of_filter. tauto.
  - by apply NoDup_filter.
Qed.

Lemma firstSeen_snoc (l : list string) (x : string) :
  firstSeen (l ++ [x]) = if decide (x ∈ firstSeen l) then firstSeen l else firstSeen l ++ [x].
Proof.
  induction l as [|y l IH].
  - cbn [firstSeen app filter list_filter].
    destruct (decide (x ∈ [])) as [Hin|_]; [by apply elem_of_nil in Hin|done].
  - cbn [firstSeen app]. rewrite IH.
    destruct (decide (x ∈ firstSeen l)) as [Hin|Hin];
      destruct (decide (x ∈ y :: filter (λ z, z ≠ y) (firstSeen l))) as [Hin'|Hin'];
      try done.
    + exfalso. apply Hin'. rewrite elem_of_cons, list_elem_of_filter.
      destruct (decide (x = y)); tauto.
    + rewrite elem_of_cons, list_elem_of_filter in Hin'.
      rewrite filter_app. cbn [filter list_filter].
      destruct Hin' as [->|[_ ?]]; [|done].
      rewrite decide_False by tauto. by rewrite app_nil_r.
    + rewrite elem_of_cons, list_elem_of_filter in Hin'.
      rewrite filter_app. cbn [filter list_filter].
      rewrite decide_True; [done|]. intros ->. tauto.
Qed.

(** ** The interning tables *)

Lemma tableInv_empty : tableInv ∅ [].
Proof.
  split; [done|]. split; [constructor|].
  intros key id. rewrite lookup_empty. split; [done|].
  intros (k & Hk & _). by rewrite lookup_nil in Hk.
Qed.

Lemma tableInv_fresh (m : gmap string Z) (ks : list string) (key : string) :
  tableInv m ks → m !! key = None → key ∉ ks.
Proof.
  intros (_ & _ & Hm) Hnone Hin.
  apply list_elem_of_lookup in Hin as [k Hk].
  assert (m !! key = Some (int32 (Z.of_nat k))) as Hsome by (apply Hm; eauto).
  congruence.
Qed.

Lemma tableInv_known (m : gmap string Z) (ks : list string) (key : string) (id : Z) :
  tableInv m ks → m !! key = Some id → key ∈ ks.
Proof.
  intros (_ & _ & Hm) Hsome. apply Hm in Hsome as (k & Hk & _).
  apply list_elem_of_lookup. eauto.
Qed.

Lemma tableInv_insert (m : gmap string Z) (ks : list string) (key : string) :
  tableInv m ks → m !! key = None →
  tableInv (<[key := int32 (Z.of_nat (size m))]> m) (ks ++ [key]).
Proof.
  intros Hinv Hnone.
  pose proof (tableInv_fresh _ _ _ Hinv Hnone) as Hfresh.
  destruct Hinv as (Hsize & Hnd & Hm).
  split; [|split].
  - rewrite map_size_insert_None by done. rewrite length_app. simpl. lia.
  - apply NoDup_app. split; [done|]. split; [|apply NoDup_singleton].
    intros x Hx Hx'. apply list_elem_of_singleton in Hx'. by subst.
  - intros key' id. destruct (decide (key = key')) as [<-|Hne].
    + rewrite lookup_insert_eq. split.
      * intros [= <-]. exists (length ks). split; [|by rewrite Hsize].
        rewrite lookup_app_r by lia. by rewrite Nat.sub_diag.
      * intros (k & Hk & ->). destruct (decide (k < length ks)) as [Hlt|Hge].
        -- rewrite lookup_app_l in Hk by done.
           exfalso. apply Hfresh. apply list_elem_of_lookup. eauto.
        -- apply lookup_lt_Some in Hk as Hlen. rewrite length_app in Hlen.
           simpl in Hlen. assert (k = length ks) as -> by lia. by rewrite Hsize.
    + rewrite lookup_insert_ne by done. rewrite Hm. split.
      * intros (k & Hk & ->). exists k. split; [|done].
        apply lookup_app_l_Some. done.
      * intros (k & Hk & ->). exists k. split; [|done].
        apply lookup_app_Some in Hk as [Hk|[_ Hk]]; [done|].
        apply list_lookup_singleton_Some in Hk as [_ ?]. done.
Qed.

Lemma addToLookup_spec (m m' : gmap string Z) (a a' : list string) (name : string) (id : Z) :
  tableInv m a → addToLookup m name a = (id, a', m') →
  tableInv m' a' ∧
  a' = (if decide (name ∈ a) then a else a ++ [name]) ∧
  ∃ k, a' !! k = Some name ∧ id = int32 (Z.of_nat k).
Proof.
  intros Hinv. unfold addToLookup.
  destruct (m !! name) as [id0|] eqn:Hlk; intros [= <- <- <-].
  - split; [done|].
    rewrite decide_True by (eapply tableInv_known; eauto).
    split; [done|]. destruct Hinv as (_ & _ & Hm). by apply Hm.
  - split; [by apply tableInv_insert|].
    rewrite decide_False by (eapply tableInv_fresh; eauto).
    split; [done|]. exists (length a).
    rewrite lookup_app_r by lia. rewrite Nat.sub_diag.
    destruct Hinv as (-> & _). done.
Qed.

Lemma pidTableInv_empty : pidTableInv [] ∅ [].
Proof.
  split; [apply tableInv_empty|]. split; [done|]. split.
  - intros c Hc. by apply elem_of_nil in Hc.
  - intros p Hp. by apply elem_of_nil in Hp.
Qed.

Lemma addToPidLookup_spec (pids : list (option PID)) (m m' : gmap string Z)
    (arr arr' : list PID) (pid : option PID) (idx : Z) :
  pidTableInv pids m arr → addToPidLookup m pid arr = (idx, arr', m') →
  pidTableInv (pids ++ [pid]) m' arr' ∧ arr `prefix_of` arr' ∧ pidResolves arr' pid idx.
Proof.
  intros (Hinv & Hlen & Hsrc & Hall). unfold addToPidLookup.
  destruct pid as [p|].
  - destruct (m !! pidKey p) as [id0|] eqn:Hlk; intros [= <- <- <-].
    + split; [|split; [done|]].
      * split; [done|]. split; [rewrite length_app; lia|]. split.
        -- intros c Hc. destruct (Hsrc c Hc) as (q & Hq & ->).
           exists q. split; [|done]. apply elem_of_app. by left.
        -- intros q Hq. apply elem_of_app in Hq as [Hq|Hq]; [by apply Hall|].
           apply list_elem_of_singleton in Hq as [= ->].
           eapply tableInv_known; eauto.
      * destruct Hinv as (_ & _ & Hm). apply Hm in Hlk as (k & Hk & ->).
        apply list_lookup_fmap_Some in Hk as (c & Hkey & Hc).
        exists k, c. done.
    + split; [|split].
      * split; [|split; [|split]].
        -- rewrite fmap_app. simpl. rewrite pidKey_cloneStripped.
           by apply tableInv_insert.
        -- rewrite !length_app. simpl. lia.
        -- intros c Hc. apply elem_of_app in Hc as [Hc|Hc].
           ++ destruct (Hsrc c Hc) as (q & Hq & ->).
              exists q. split; [|done]. apply elem_of_app. by left.
           ++ apply list_elem_of_singleton in Hc as ->.
              exists p. split; [|done]. apply elem_of_app. right.
              by apply list_elem_of_singleton.
        -- intros q Hq. rewrite fmap_app. apply elem_of_app.
           apply elem_of_app in Hq as [Hq|Hq]; [left; by apply Hall|].
           apply list_elem_of_singleton in Hq as [= ->]. right.
           simpl. rewrite pidKey_cloneStripped. by apply list_elem_of_singleton.
      * by apply prefix_app_r.
      * exists (length arr), (cloneStripped p).
        rewrite lookup_app_r by lia. rewrite Nat.sub_diag.
        split; [done|]. split; [done|].
        destruct Hinv as (Hsize & _). rewrite length_fmap in Hsize.
        by rewrite Hsize.
  - intros [= <- <- <-]. split; [|split; [done|done]].
    split; [done|]. split; [rewrite length_app; lia|]. split.
    + intros c Hc. destruct (Hsrc c Hc) as (q & Hq & ->).
      exists q. split; [|done]. apply elem_of_app. by left.
    + intros q Hq. apply elem_of_app in Hq as [Hq|Hq]; [by apply Hall|].
      by apply list_elem_of_singleton in Hq.
Qed.

(** ** The envelope loop *)

Section Assembly.

Context {payload : Type}.
Variable Serialize : payload → Z → (list Byte.byte * string) + error.

Lemma pidResolves_prefix (arr arr' : list PID) (pid : option PID) (idx : Z) :
  arr `prefix_of` arr' → pidResolves arr pid idx → pidResolves arr' pid idx.
Proof.
  intros Hpre. destruct pid as [p|]; [|done].
  intros (k & c & Hk & Hrest). exists k, c. split; [|done].
  by eapply prefix_lookup_Some.
Qed.

Lemma builtFrom_prefix (names names' : list string) (ts ts' ss ss' : list PID)
    (rd : remoteDeliver payload) (e : MessageEnvelope) :
  names `prefix_of` names' → ts `prefix_of` ts' → ss `prefix_of` ss' →
  builtFrom Serialize names ts ss rd e → builtFrom Serialize names' ts' ss' rd e.
Proof.
  intros Hn Ht Hs ((tn & k & Hser & Hk & Hid) & Htgt & Hsnd & Hrest).
  split; [|split; [|split]].
  - exists tn, k. split; [done|]. split; [|done]. by eapply prefix_lookup_Some.
  - by eapply pidResolves_prefix.
  - by eapply pidResolves_prefix.
  - done.
Qed.

Lemma loopInv_init (n : nat) : loopInv Serialize n [] (initialLoopState n).
Proof.
  unfold loopInv, initialLoopState; simpl.
  split; [apply tableInv_empty|]. split; [done|].
  split; [apply pidTableInv_empty|]. split; [apply pidTableInv_empty|].
  split; [apply length_replicate|].
  intros i rd Hi. by rewrite lookup_nil in Hi.
Qed.

Lemma deliverStep_inv (n : nat) (done : list (remoteDeliver payload))
    (rd : remoteDeliver payload) (bytes : list Byte.byte) (typeName : string)
    (s : LoopState) :
  loopInv Serialize n done s → length done < n → serialized Serialize rd = inl (bytes, typeName) →
  loopInv Serialize n (done ++ [rd]) (deliverStep (length done) rd bytes typeName s).
Proof.
  intros (Hty & Hfirst & Htg & Hsn & Hlen & Henv) Hlt Hser.
  unfold deliverStep.
  destruct (addToLookup (typeNames s) typeName (typeNamesArr s))
    as [[typeID names'] tmap'] eqn:Hadd.
  destruct (addToPidLookup (targetNames s) (target rd) (targetNamesArr s))
    as [[targetID ts'] tgmap'] eqn:Haddt.
  destruct (addToPidLookup (senderNames s) (sender rd) (senderNamesArr s))
    as [[senderID ss'] snmap'] eqn:Hadds.
  destruct (addToLookup_spec _ _ _ _ _ _ Hty Hadd) as (Hty' & Hnames' & k & Hk & Hid).
  destruct (addToPidLookup_spec _ _ _ _ _ _ _ Htg Haddt) as (Htg' & Htpre & Htres).
  destruct (addToPidLookup_spec _ _ _ _ _ _ _ Hsn Hadds) as (Hsn' & Hspre & Hsres).
  assert (typeNamesArr s `prefix_of` names') as Hnpre.
  { rewrite Hnames'. case_decide; [done|]. by apply prefix_app_r. }
  unfold loopInv; simpl.
  split; [done|]. split; [|split; [|split; [|split]]].
  - rewrite omap_app. simpl. unfold typeNameOf at 2. rewrite Hser. simpl.
    rewrite firstSeen_snoc, <- Hfirst. done.
  - by rewrite fmap_app.
  - by rewrite fmap_app.
  - by rewrite length_insert.
  - intros i rd' Hi. apply lookup_app_Some in Hi as [Hi|[Hge Hi]].
    + apply lookup_lt_Some in Hi as Hilt.
      destruct (Henv i rd' Hi) as (e & He & Hbuilt).
      exists e. split.
      * rewrite list_lookup_insert_ne by lia. done.
      * by eapply builtFrom_prefix.
    + apply list_lookup_singleton_Some in Hi as [Hi0 <-].
      assert (i = length done) as -> by lia.
      eexists. split.
      * apply list_lookup_insert_eq. lia.
      * split; [|done]. simpl. exists typeName, k. done.
Qed.

(** The loop on deliveries keeps the invariant. *)
Lemma envelopeLoop_inv (n : nat) (rest done : list (remoteDeliver payload))
    (s s' : LoopState) :
  loopInv Serialize n done s → length done + length rest ≤ n →
  envelopeLoop Serialize (length done) (ItemDeliver <$> rest) s = LoopDone s' →
  loopInv Serialize n (done ++ rest) s'.
Proof.
  revert done s. induction rest as [|rd rest IH]; intros done s Hinv Hlen; simpl.
  - intros [= <-]. by rewrite app_nil_r.
  - destruct (Serialize (message rd) serializerID) as [[bytes tn]|err] eqn:Hser; [|done].
    intros Hloop. simpl in Hlen.
    rewrite (assoc_L (++) done [rd] rest : done ++ rd :: rest = (done ++ [rd]) ++ rest).
    apply (IH (done ++ [rd]) (deliverStep (length done) rd bytes tn s)).
    + apply deliverStep_inv; [done|lia|done].
    + rewrite length_app. simpl. lia.
    + rewrite length_app. simpl. by rewrite Nat.add_1_r.
Qed.

(** The loop runs to its end when every payload serializes. *)
Lemma envelopeLoop_total (rds : list (remoteDeliver payload)) (i : nat) (s : LoopState) :
  Forall (serializes Serialize) rds →
  ∃ s', envelopeLoop Serialize i (ItemDeliver <$> rds) s = LoopDone s'.
Proof.
  intros Hall. revert i s. induction Hall as [|rd rds [[bytes tn] Hser] _ IH]; intros i s; simpl.
  - eauto.
  - unfold serialized in Hser. rewrite Hser. apply IH.
Qed.

(** The loop only runs to its end on deliveries that serialize. *)
Lemma envelopeLoop_done (msg : list (BatchItem payload)) (i : nat) (s s' : LoopState) :
  envelopeLoop Serialize i msg s = LoopDone s' →
  ∃ rds, msg = ItemDeliver <$> rds ∧ Forall (serializes Serialize) rds.
Proof.
  revert i s. induction msg as [|[addr|rd|] msg IH]; intros i s; simpl; try done.
  - intros _. exists []. split; [done|constructor].
  - destruct (Serialize (message rd) serializerID) as [[bytes tn]|err] eqn:Hser; [|done].
    intros (rds & -> & Hall)%IH. exists (rd :: rds). split; [done|].
    constructor; [|done]. exists (bytes, tn). done.
Qed.

(** From the empty tables to the batch. *)
Lemma assemble_inv (rds : list (remoteDeliver payload)) (s : LoopState) :
  assemble Serialize (ItemDeliver <$> rds) = LoopDone s →
  loopInv Serialize (length rds) rds s.
Proof.
  unfold assemble. rewrite length_fmap. intros Hloop.
  apply (envelopeLoop_inv (length rds) rds [] (initialLoopState (length rds)) s).
  - apply loopInv_init.
  - simpl. lia.
  - done.
Qed.

End Assembly.

(** ** More on first-seen order *)

Lemma firstSeen_length (l : list string) : length (firstSeen l) ≤ length l.
Proof.
  induction l as [|x l IH]; simpl; [done|].
  pose proof (length_filter (λ y, y ≠ x) (firstSeen l)). lia.
Qed.

Lemma firstSeen_app_prefix (l1 l2 : list string) :
  firstSeen l1 `prefix_of` firstSeen (l1 ++ l2).
Proof.
  induction l2 as [|x l2 IH] using rev_ind.
  - by rewrite app_nil_r.
  - rewrite (assoc_L (++)), firstSeen_snoc.
    case_decide; [done|]. etrans; [exact IH|]. by apply prefix_app_r.
Qed.

(** The position of a name that was not seen before is the number of
    distinct names seen before it. *)
Lemma firstSeen_new_position (before after : list string) (x : string) (k : nat) :
  x ∉ before → firstSeen (before ++ x :: after) !! k = Some x →
  k = length (firstSeen before).
Proof.
  intros Hnew Hk.
  assert (firstSeen (before ++ [x]) = firstSeen before ++ [x]) as Hsnoc.
  { rewrite firstSeen_snoc. rewrite decide_False; [done|]. by rewrite firstSeen_elem. }
  pose proof (firstSeen_app_prefix (before ++ [x]) after) as Hpre.
  rewrite <- (assoc_L (++)) in Hpre. simpl in Hpre. rewrite Hsnoc in Hpre.
  assert (firstSeen (before ++ x :: after) !! length (firstSeen before) = Some x) as Hpos.
  { eapply prefix_lookup_Some; [|exact Hpre].
    rewrite lookup_app_r by lia. by rewrite Nat.sub_diag. }
  eapply NoDup_lookup; [apply firstSeen_NoDup|exact Hk|exact Hpos].
Qed.

Lemma omap_length_le {A B} (f : A → option B) (l : list A) :
  length (omap f l) ≤ length l.
Proof.
  induction l as [|x l IH]; simpl; [done|].
  change (list_omap A B f l) with (omap f l).
  destruct (f x); simpl; lia.
Qed.

(** ** The assembled batch *)


Lemma noSlash_keysDistinguish (pids : list (option PID)) :
  (∀ p, Some p ∈ pids → hasSlash (Address p) = false) → keysDistinguish pids.
Proof.
  intros Hns p q Hp Hq Hkey. apply pidKey_inj_noSlash; auto.
Qed.

(** With fewer than 2^31 references, an index is a position plus one, and
    the entry there is the stripped clone of a reference with the same
    key. *)
Lemma pidResolves_exact (pids : list (option PID)) (m : gmap string Z)
    (arr : list PID) (p : PID) (idx : Z) :
  pidTableInv pids m arr → (Z.of_nat (length pids) < 2 ^ 31)%Z →
  pidResolves arr (Some p) idx →
  ∃ k c q, arr !! k = Some c ∧ idx = (Z.of_nat k + 1)%Z ∧
           pidKey c = pidKey p ∧ Some q ∈ pids ∧ c = cloneStripped q.
Proof.
  intros (_ & Hlen & Hsrc & _) Hbound (k & c & Hk & Hkey & ->).
  apply lookup_lt_Some in Hk as Hlt.
  destruct (Hsrc c) as (q & Hq & Hc); [by eapply list_elem_of_lookup_2|].
  exists k, c, q. rewrite int32_succ_small by lia. done.
Qed.

(** When keys tell identities apart, the entry is the stripped clone of
    the reference itself. *)
Lemma pidResolves_self (pids : list (option PID)) (m : gmap string Z)
    (arr : list PID) (p : PID) (idx : Z) :
  pidTableInv pids m arr → (Z.of_nat (length pids) < 2 ^ 31)%Z →
  keysDistinguish pids → Some p ∈ pids → pidResolves arr (Some p) idx →
  ∃ k, arr !! k = Some (cloneStripped p) ∧ idx = (Z.of_nat k + 1)%Z.
Proof.
  intros Hinv Hbound Hdist Hp Hres.
  destruct (pidResolves_exact _ _ _ _ _ Hinv Hbound Hres) as (k & c & q & Hk & -> & Hkey & Hq & ->).
  exists k. split; [|done]. rewrite Hk. f_equal.
  apply cloneStripped_identity, Hdist; [done|done|].
  by rewrite pidKey_cloneStripped in Hkey.
Qed.

Lemma pidTable_NoDup_identity (pids : list (option PID)) (m : gmap string Z) (arr : list PID) :
  pidTableInv pids m arr → NoDup (identity <$> arr).
Proof.
  intros ((_ & Hnd & _) & _).
  assert (pidKey <$> arr = (λ ai : string * string, ai.1 +:+ "/" +:+ ai.2) <$> (identity <$> arr))
    as Hcomp by (rewrite <- list_fmap_compose; done).
  rewrite Hcomp in Hnd. by eapply NoDup_fmap_1.
Qed.

Lemma offsetIndex_of_resolves (pids : list (option PID)) (m : gmap string Z)
    (arr : list PID) (pid : option PID) (idx : Z) :
  pidTableInv pids m arr → (Z.of_nat (length pids) < 2 ^ 31)%Z →
  keysDistinguish pids → pid ∈ pids → pidResolves arr pid idx →
  offsetIndex arr pid idx.
Proof.
  intros Hinv Hbound Hdist Hin Hres. destruct pid as [p|]; [|done].
  destruct (pidResolves_self _ _ _ _ _ Hinv Hbound Hdist Hin Hres) as (k & Hk & ->).
  split; [lia|]. by exists k.
Qed.

Lemma internedTable_of_inv (pids : list (option PID)) (m : gmap string Z) (arr : list PID) :
  pidTableInv pids m arr → keysDistinguish pids → internedTable pids arr.
Proof.
  intros Hinv Hdist. pose proof (pidTable_NoDup_identity _ _ _ Hinv) as Hnd.
  destruct Hinv as (_ & _ & Hsrc & Hall).
  split; [done|]. split.
  - intros c Hc. destruct (Hsrc c Hc) as (q & _ & ->). done.
  - intros c. split; [apply Hsrc|].
    intros (p & Hp & ->).
    apply Hall in Hp as Hkey.
    apply list_elem_of_fmap in Hkey as (c & Hkey & Hc).
    destruct (Hsrc c Hc) as (q & Hq & ->).
    rewrite pidKey_cloneStripped in Hkey.
    rewrite (cloneStripped_identity p q); [done|]. by apply Hdist.
Qed.

Lemma pidResolves_in_range (pids : list (option PID)) (m : gmap string Z)
    (arr : list PID) (pid : option PID) (idx : Z) :
  pidTableInv pids m arr → (Z.of_nat (length pids) < 2 ^ 31)%Z →
  pidResolves arr pid idx →
  (0 ≤ idx ≤ Z.of_nat (length arr))%Z ∧ (idx = 0%Z ↔ pid = None).
Proof.
  intros Hinv Hbound Hres. destruct pid as [p|].
  - destruct (pidResolves_exact _ _ _ _ _ Hinv Hbound Hres) as (k & c & q & Hk & -> & _).
    apply lookup_lt_Some in Hk. split; [lia|]. split; [lia|done].
  - simpl in Hres. subst idx. split; [lia|done].
Qed.

Lemma pidResolves_same_key (pids : list (option PID)) (m : gmap string Z)
    (arr : list PID) (p1 p2 : PID) (i1 i2 : Z) :
  pidTableInv pids m arr → (Z.of_nat (length pids) < 2 ^ 31)%Z →
  pidResolves arr (Some p1) i1 → pidResolves arr (Some p2) i2 →
  i1 = i2 ↔ pidKey p1 = pidKey p2.
Proof.
  intros Hinv Hbound H1 H2.
  destruct (pidResolves_exact _ _ _ _ _ Hinv Hbound H1) as (k1 & c1 & _ & Hk1 & -> & Hkey1 & _).
  destruct (pidResolves_exact _ _ _ _ _ Hinv Hbound H2) as (k2 & c2 & _ & Hk2 & -> & Hkey2 & _).
  destruct Hinv as ((_ & Hnd & _) & _). split.
  - intros Heq. assert (k1 = k2) as -> by lia. congruence.
  - intros Hkey. f_equal. f_equal.
    eapply (NoDup_lookup _ _ _ (pidKey p1) Hnd).
    + rewrite list_lookup_fmap, Hk1. simpl. by rewrite Hkey1.
    + rewrite list_lookup_fmap, Hk2. simpl. by rewrite Hkey2, Hkey.
Qed.

(** Whatever the keys, an index follows the offset convention up to the
    key of its reference. *)
Lemma offsetKeyIndex_of_resolves (pids : list (option PID)) (m : gmap string Z)
    (arr : list PID) (pid : option PID) (idx : Z) :
  pidTableInv pids m arr → (Z.of_nat (length pids) < 2 ^ 31)%Z →
  pidResolves arr pid idx → offsetKeyIndex arr pid idx.
Proof.
  intros Hinv Hbound Hres. destruct pid as [p|]; [|done].
  destruct (pidResolves_exact _ _ _ _ _ Hinv Hbound Hres)
    as (k & c & q & Hk & -> & Hkey & _ & ->).
  split; [lia|]. exists k, (cloneStripped q). done.
Qed.

Lemma identity_pidKey (p q : PID) : identity p = identity q → pidKey p = pidKey q.
Proof. unfold identity, pidKey. by intros [= -> ->]. Qed.

Lemma string_app_cancel (a x y : string) : a +:+ x = a +:+ y → x = y.
Proof.
  induction a as [|c a IH]; simpl; [done|]. intros [= Heq]. by apply IH.
Qed.

(** References of one address never collide. *)
Lemma sameAddress_keysDistinguish (pids : list (option PID)) (a : string) :
  (∀ p, Some p ∈ pids → Address p = a) → keysDistinguish pids.
Proof.
  intros Hsame p q Hp Hq Hkey. unfold pidKey in Hkey.
  rewrite (Hsame p Hp), (Hsame q Hq) in Hkey.
  apply string_app_cancel in Hkey. injection Hkey as Hid.
  apply (string_app_cancel "") in Hid.
  unfold identity. by rewrite (Hsame p Hp), (Hsame q Hq), Hid.
Qed.

(** A table that holds every reference of its input tells their keys
    apart: one key has one entry. *)
Lemma members_keysDistinguish (pids : list (option PID)) (m : gmap string Z)
    (arr : list PID) :
  pidTableInv pids m arr → (∀ p, Some p ∈ pids → cloneStripped p ∈ arr) →
  keysDistinguish pids.
Proof.
  intros ((_ & Hnd & _) & _) Hmem p q Hp Hq Hkey.
  apply Hmem, list_elem_of_lookup in Hp as [k1 Hk1].
  apply Hmem, list_elem_of_lookup in Hq as [k2 Hk2].
  assert (k1 = k2) as ->.
  { eapply (NoDup_lookup _ _ _ (pidKey p) Hnd).
    - by rewrite list_lookup_fmap, Hk1.
    - rewrite list_lookup_fmap, Hk2. simpl. by rewrite pidKey_cloneStripped, Hkey. }
  rewrite Hk1 in Hk2. injection Hk2 as Ha Hi. unfold identity. by rewrite Ha, Hi.
Qed.

Lemma internedTable_iff (pids : list (option PID)) (m : gmap string Z) (arr : list PID) :
  pidTableInv pids m arr → internedTable pids arr ↔ keysDistinguish pids.
Proof.
  intros Hinv. split.
  - intros (_ & _ & Hmem). eapply members_keysDistinguish; [exact Hinv|].
    intros p Hp. apply Hmem. eauto.
  - by apply internedTable_of_inv with m.
Qed.

(** The loop consults the serializer at id 0 only. *)
Lemma envelopeLoop_ext {payload : Type}
    (S1 S2 : payload → Z → (list Byte.byte * string) + error)
    (msg : list (BatchItem payload)) (i : nat) (s : LoopState) :
  (∀ m, S1 m 0%Z = S2 m 0%Z) → envelopeLoop S1 i msg s = envelopeLoop S2 i msg s.
Proof.
  intros Hext. revert i s. induction msg as [|[addr|rd|] msg IH]; intros i s; simpl; try done.
  unfold serializerID. rewrite Hext.
  destruct (S2 (message rd) 0%Z) as [[bytes tn]|err]; [apply IH|done].
Qed.

Section Batches.

Context {payload : Type}.
Variable Serialize : payload → Z → (list Byte.byte * string) + error.

Lemma assemble_deliveries (rds : list (remoteDeliver payload)) :
  Forall (serializes Serialize) rds →
  ∃ s, assemble Serialize (ItemDeliver <$> rds) = LoopDone s ∧
       loopInv Serialize (length rds) rds s.
Proof.
  intros Hall.
  destruct (envelopeLoop_total Serialize rds 0
              (initialLoopState (length (ItemDeliver <$> rds))) Hall) as [s Hs].
  exists s. split; [done|]. by apply assemble_inv.
Qed.

Lemma typeNames_split (rds : list (remoteDeliver payload)) (i : nat)
    (rd : remoteDeliver payload) (bytes : list Byte.byte) (typeName : string) :
  rds !! i = Some rd → serialized Serialize rd = inl (bytes, typeName) →
  omap (typeNameOf Serialize) rds =
    omap (typeNameOf Serialize) (take i rds) ++ typeName :: omap (typeNameOf Serialize) (drop (S i) rds).
Proof.
  intros Hi Hser. rewrite <- (take_drop_middle rds i rd Hi) at 1.
  rewrite omap_app. f_equal. simpl.
  unfold typeNameOf at 1. unfold serialized in *.
  by rewrite Hser.
Qed.

(** C4.  For deliveries that all serialize (no termination event among
    them), the loop runs to its end; the envelope slice has the length of
    the input and its slot [i] holds the envelope built from delivery [i]
    (its serialized payload, its header, its request ids); the type-name
    table is the list of distinct type names in first-seen order; the type
    id of an envelope is the position of its type name in the table, as
    an [int32], which is the position itself in a batch of fewer than 2^31
    deliveries; and a name not seen before sits at the position that
    counts the distinct names seen so far. *)
Theorem order_and_type_table (rds : list (remoteDeliver payload)) :
  Forall (serializes Serialize) rds →
  ∃ s, assemble Serialize (ItemDeliver <$> rds) = LoopDone s ∧
    length (Envelopes (batchOf s)) = length rds ∧
    TypeNames (batchOf s) = firstSeen (omap (typeNameOf Serialize) rds) ∧
    NoDup (TypeNames (batchOf s)) ∧
    ∀ i rd, rds !! i = Some rd →
      ∃ e typeName k,
        Envelopes (batchOf s) !! i = Some (Some e) ∧
        serialized Serialize rd = inl (MessageData e, typeName) ∧
        EnvMessageHeader e = envelopeHeader (header rd) ∧
        TargetRequestId e = requestIdOf (target rd) ∧
        SenderRequestId e = requestIdOf (sender rd) ∧
        TypeNames (batchOf s) !! k = Some typeName ∧
        TypeId e = int32 (Z.of_nat k) ∧
        ((Z.of_nat (length rds) < 2 ^ 31)%Z → TypeId e = Z.of_nat k) ∧
        (typeName ∉ omap (typeNameOf Serialize) (take i rds) →
         k = length (firstSeen (omap (typeNameOf Serialize) (take i rds)))).
Proof.
  intros Hall.
  destruct (assemble_deliveries rds Hall) as (s & Hs & Hty & Hfirst & _ & _ & Hlen & Henv).
  exists s. split; [done|]. simpl.
  split; [done|]. split; [done|].
  split; [rewrite Hfirst; apply firstSeen_NoDup|].
  intros i rd Hi.
  destruct (Henv i rd Hi) as (e & He & (tn & k & Hser & Hk & Hid) & _ & _ & Htr & Hsr & _ & Hhd).
  exists e, tn, k. split; [done|]. split; [done|]. split; [done|].
  split; [done|]. split; [done|]. split; [done|]. split; [done|]. split.
  - intros Hbound. rewrite Hid. apply int32_nat_small.
    apply lookup_lt_Some in Hk. rewrite Hfirst in Hk.
    pose proof (firstSeen_length (omap (typeNameOf Serialize) rds)).
    pose proof (omap_length_le (typeNameOf Serialize) rds). lia.
  - intros Hnew.
    rewrite Hfirst, (typeNames_split rds i rd _ tn Hi Hser) in Hk.
    by eapply firstSeen_new_position.
Qed.

(** Every index of a table leads to its own reference exactly when the
    keys of the table's references tell their identities apart. *)
Lemma indicesResolve_iff (ref : remoteDeliver payload → option PID)
    (idx : MessageEnvelope → Z) (m : gmap string Z) (table : list PID)
    (rds : list (remoteDeliver payload)) (envs : list (option MessageEnvelope)) :
  pidTableInv (ref <$> rds) m table → (Z.of_nat (length rds) < 2 ^ 31)%Z →
  (∀ i rd, rds !! i = Some rd →
     ∃ e, envs !! i = Some (Some e) ∧ pidResolves table (ref rd) (idx e)) →
  indicesResolve ref idx table rds envs ↔ keysDistinguish (ref <$> rds).
Proof.
  intros Hinv Hbound Henv. split.
  - intros Hres. eapply members_keysDistinguish; [exact Hinv|].
    intros p Hp. apply list_elem_of_fmap in Hp as (rd & Hrd & Hin).
    apply list_elem_of_lookup in Hin as [i Hi].
    destruct (Henv i rd Hi) as (e & He & _).
    specialize (Hres i rd e Hi He). rewrite <- Hrd in Hres.
    destruct Hres as (_ & k & Hk & _). by eapply list_elem_of_lookup_2.
  - intros Hdist i rd e Hi He. destruct (Henv i rd Hi) as (e' & He' & Hr).
    assert (e' = e) as -> by congruence.
    eapply offsetIndex_of_resolves; [exact Hinv| |exact Hdist| |exact Hr].
    + by rewrite length_fmap.
    + by eapply list_elem_of_fmap_2, list_elem_of_lookup_2.
Qed.

(** C2.  For deliveries that all serialize, fewer than 2^31, whatever
    their references: a sender index is 0 exactly for a nil sender and a
    target index is 0 exactly for a nil target, so no present reference
    gets index 0; an index that is not 0 is one more than a position of
    its table, and the entry there has the key [Address/Id] of the
    reference and no request id.  That the entry is the reference itself
    holds for the whole table exactly when no two of its references share
    a key while differing in address or id; it always holds for the
    targets when they are all at one address, as the targets of one
    writer are.  Two senders with the same key break it: the index of one
    leads to the other. *)
Theorem sentinel_and_offset (rds : list (remoteDeliver payload)) :
  Forall (serializes Serialize) rds → (Z.of_nat (length rds) < 2 ^ 31)%Z →
  ∃ s, assemble Serialize (ItemDeliver <$> rds) = LoopDone s ∧
    (∀ i rd, rds !! i = Some rd →
       ∃ e, Envelopes (batchOf s) !! i = Some (Some e) ∧
            (Target e = 0%Z ↔ target rd = None) ∧
            (Sender e = 0%Z ↔ sender rd = None) ∧
            offsetKeyIndex (Targets (batchOf s)) (target rd) (Target e) ∧
            offsetKeyIndex (Senders (batchOf s)) (sender rd) (Sender e)) ∧
    (indicesResolve target Target (Targets (batchOf s)) rds (Envelopes (batchOf s))
       ↔ keysDistinguish (target <$> rds)) ∧
    (indicesResolve sender Sender (Senders (batchOf s)) rds (Envelopes (batchOf s))
       ↔ keysDistinguish (sender <$> rds)) ∧
    (∀ a, (∀ p, Some p ∈ target <$> rds → Address p = a) →
       indicesResolve target Target (Targets (batchOf s)) rds (Envelopes (batchOf s))).
Proof.
  intros Hall Hbound.
  destruct (assemble_deliveries rds Hall) as (s & Hs & _ & _ & Htg & Hsn & _ & Henv).
  assert (Z.of_nat (length (target <$> rds)) < 2 ^ 31)%Z as Hbt by (by rewrite length_fmap).
  assert (Z.of_nat (length (sender <$> rds)) < 2 ^ 31)%Z as Hbs by (by rewrite length_fmap).
  assert (indicesResolve target Target (targetNamesArr s) rds (envelopes s)
            ↔ keysDistinguish (target <$> rds)) as Hiff.
  { apply (indicesResolve_iff target Target (targetNames s)); [done|done|].
    intros i rd Hi. destruct (Henv i rd Hi) as (e & He & _ & Ht & _). eauto. }
  exists s. split; [done|]. simpl. split; [|split; [done|split]].
  - intros i rd Hi.
    destruct (Henv i rd Hi) as (e & He & _ & Htres & Hsres & _).
    exists e. split; [done|].
    split; [exact (proj2 (pidResolves_in_range _ _ _ _ _ Htg Hbt Htres))|].
    split; [exact (proj2 (pidResolves_in_range _ _ _ _ _ Hsn Hbs Hsres))|].
    split; by eapply offsetKeyIndex_of_resolves.
  - apply (indicesResolve_iff sender Sender (senderNames s)); [done|done|].
    intros i rd Hi. destruct (Henv i rd Hi) as (e & He & _ & _ & Hsd & _). eauto.
  - intros a Hsame. apply Hiff. by eapply sameAddress_keysDistinguish.
Qed.

(** C3.  For deliveries that all serialize, fewer than 2^31, whatever
    their references: no table holds an address and id twice, every entry
    is a reference of the batch with its request id set to 0, every
    envelope carries the request ids of its delivery's references (0 for
    nil), and two deliveries whose targets have the same address and id
    get the same target index and each its own request id.  That every
    distinct address and id of the batch is in the table holds exactly
    when no two references of the table share a key [Address/Id] while
    differing in address or id, and so does that the indices lead to
    them; both always hold for the targets when they are all at one
    address.  Of two senders with the same key only the first is in the
    table. *)
Theorem dedup_and_request_ids (rds : list (remoteDeliver payload)) :
  Forall (serializes Serialize) rds → (Z.of_nat (length rds) < 2 ^ 31)%Z →
  ∃ s, assemble Serialize (ItemDeliver <$> rds) = LoopDone s ∧
    NoDup (identity <$> Targets (batchOf s)) ∧
    NoDup (identity <$> Senders (batchOf s)) ∧
    (∀ c, c ∈ Targets (batchOf s) →
       RequestId c = 0%Z ∧ ∃ p, Some p ∈ target <$> rds ∧ c = cloneStripped p) ∧
    (∀ c, c ∈ Senders (batchOf s) →
       RequestId c = 0%Z ∧ ∃ p, Some p ∈ sender <$> rds ∧ c = cloneStripped p) ∧
    (∀ i rd, rds !! i = Some rd →
       ∃ e, Envelopes (batchOf s) !! i = Some (Some e) ∧
            TargetRequestId e = requestIdOf (target rd) ∧
            SenderRequestId e = requestIdOf (sender rd)) ∧
    (∀ i j rd1 rd2 p1 p2 e1 e2,
       rds !! i = Some rd1 → rds !! j = Some rd2 →
       target rd1 = Some p1 → target rd2 = Some p2 → identity p1 = identity p2 →
       Envelopes (batchOf s) !! i = Some (Some e1) →
       Envelopes (batchOf s) !! j = Some (Some e2) →
       Target e1 = Target e2 ∧
       TargetRequestId e1 = RequestId p1 ∧ TargetRequestId e2 = RequestId p2) ∧
    (internedTable (target <$> rds) (Targets (batchOf s))
       ↔ keysDistinguish (target <$> rds)) ∧
    (indicesResolve target Target (Targets (batchOf s)) rds (Envelopes (batchOf s))
       ↔ keysDistinguish (target <$> rds)) ∧
    (internedTable (sender <$> rds) (Senders (batchOf s))
       ↔ keysDistinguish (sender <$> rds)) ∧
    (indicesResolve sender Sender (Senders (batchOf s)) rds (Envelopes (batchOf s))
       ↔ keysDistinguish (sender <$> rds)) ∧
    (∀ a, (∀ p, Some p ∈ target <$> rds → Address p = a) →
       internedTable (target <$> rds) (Targets (batchOf s)) ∧
       indicesResolve target Target (Targets (batchOf s)) rds (Envelopes (batchOf s))).
Proof.
  intros Hall Hbound.
  destruct (assemble_deliveries rds Hall) as (s & Hs & _ & _ & Htg & Hsn & _ & Henv).
  assert (Z.of_nat (length (target <$> rds)) < 2 ^ 31)%Z as Hbt by (by rewrite length_fmap).
  assert (indicesResolve target Target (targetNamesArr s) rds (envelopes s)
            ↔ keysDistinguish (target <$> rds)) as Hiff.
  { apply (indicesResolve_iff target Target (targetNames s)); [done|done|].
    intros i rd Hi. destruct (Henv i rd Hi) as (e & He & _ & Ht & _). eauto. }
  exists s. split; [done|]. simpl.
  split; [by eapply pidTable_NoDup_identity|].
  split; [by eapply pidTable_NoDup_identity|].
  split; [|split; [|split; [|split; [|split; [by eapply internedTable_iff|
    split; [done|split; [by eapply internedTable_iff|split]]]]]]].
  - intros c Hc. destruct Htg as (_ & _ & Hsrc & _).
    destruct (Hsrc c Hc) as (p & Hp & ->). eauto.
  - intros c Hc. destruct Hsn as (_ & _ & Hsrc & _).
    destruct (Hsrc c Hc) as (p & Hp & ->). eauto.
  - intros i rd Hi.
    destruct (Henv i rd Hi) as (e & He & _ & _ & _ & Htr & Hsr & _). eauto.
  - intros i j rd1 rd2 p1 p2 e1 e2 Hi Hj Ht1 Ht2 Hid He1 He2.
    destruct (Henv i rd1 Hi) as (e1' & He1' & _ & Hr1 & _ & Hq1 & _).
    destruct (Henv j rd2 Hj) as (e2' & He2' & _ & Hr2 & _ & Hq2 & _).
    assert (e1' = e1) as -> by congruence. assert (e2' = e2) as -> by congruence.
    rewrite Ht1 in Hr1, Hq1. rewrite Ht2 in Hr2, Hq2.
    split; [|done].
    apply (pidResolves_same_key _ _ _ p1 p2 _ _ Htg Hbt Hr1 Hr2).
    by apply identity_pidKey.
  - apply (indicesResolve_iff sender Sender (senderNames s)); [done|done|].
    intros i rd Hi. destruct (Henv i rd Hi) as (e & He & _ & _ & Hsd & _). eauto.
  - intros a Hsame.
    pose proof (sameAddress_keysDistinguish _ a Hsame) as Hdist.
    split; [by eapply internedTable_iff|by apply Hiff].
Qed.

(** C10.  Whenever the loop runs to its end, every slot of the envelope
    slice holds an envelope whose [SerializerId] is 0, and the result is
    the same for any serializer registry that agrees with this one at
    serializer id 0: no other id is ever consulted. *)
Theorem serializer_id_is_zero (msg : list (BatchItem payload)) (s : LoopState) :
  assemble Serialize msg = LoopDone s →
  Forall (λ slot, ∃ e, slot = Some e ∧ SerializerId e = 0%Z) (Envelopes (batchOf s)) ∧
  ∀ Serialize' : payload → Z → (list Byte.byte * string) + error,
    (∀ m, Serialize' m 0%Z = Serialize m 0%Z) → assemble Serialize' msg = LoopDone s.
Proof.
  intros Hs. split.
  - destruct (envelopeLoop_done Serialize _ _ _ _ Hs) as (rds & -> & Hall).
    apply assemble_inv in Hs as (_ & _ & _ & _ & Hlen & Henv).
    apply Forall_lookup. simpl. intros i slot Hslot.
    apply lookup_lt_Some in Hslot as Hlt. rewrite Hlen in Hlt.
    apply lookup_lt_is_Some in Hlt as [rd Hrd].
    destruct (Henv i rd Hrd) as (e & He & _ & _ & _ & _ & _ & Hz & _).
    exists e. split; [congruence|done].
  - intros Serialize' Hext. unfold assemble in *. by rewrite (envelopeLoop_ext Serialize' Serialize).
Qed.

End Batches.

(** ** The liveness loop *)

(** C1.  On an end-of-file read the loop publishes nothing, but it does
    not exit: the [break] leaves the [switch] only, the loop reads again,
    and a later read still publishes.  The loop never exits on
    end-of-file reads alone. *)
Theorem EOF_read_does_not_exit (address : string) (reads : list RecvResult) (n : nat) :
  monitorBody address (RecvErr io_EOF) = ([], NextIteration) ∧
  monitorLoop address (RecvErr io_EOF :: reads) = monitorLoop address reads ∧
  monitorLoop address (replicate n (RecvErr io_EOF)) = ([], BlockedInRecv) ∧
  monitorLoop address [RecvErr io_EOF; RecvErr (errors_New "transport is closing")]
    = ([EndpointTerminatedEvent address], Exited).
Proof.
  split; [done|]. split; [|split; [|done]].
  - simpl. by destruct (monitorLoop address reads).
  - induction n as [|n IH]; simpl; [done|]. by rewrite IH.
Qed.

(** C5 (amended).  A read that fails with a transport error other than
    end-of-file makes the loop publish exactly one Terminated event for
    the address and exit, whatever would be read next; an end-of-file read
    publishes no event; a successfully read message publishes one
    Terminated event and the loop goes on reading. *)
Theorem transport_error_publishes_once (address : string) (e : error)
    (rest : list RecvResult) :
  unwraps_to_EOF e = false →
  monitorLoop address (RecvErr e :: rest) = ([EndpointTerminatedEvent address], Exited) ∧
  (∀ e', unwraps_to_EOF e' = true → (monitorBody address (RecvErr e')).1 = []) ∧
  (∀ m, monitorBody address (RecvMsg m) = ([EndpointTerminatedEvent address], NextIteration)).
Proof.
  intros He. split; [|split].
  - simpl. unfold monitorBody. simpl. by rewrite He.
  - intros e' He'. unfold monitorBody. simpl. by rewrite He'.
  - done.
Qed.

(** ** The connect handshake *)

Section Connect.

Context {payload : Type}.
Variable T : Transport.

Implicit Types σ : Machine payload.

Ltac run_monad :=
  unfold initialize, initializeInternal, doSend, doRecv, bind, ret, panic,
    getWriter, tick, emit, setConn, setStream; simpl.

(** A connect whose four calls succeed. *)
Lemma initializeInternal_ok σ :
  handshakeOK T (calls σ) →
  initializeInternal T σ =
    ({| ew := {| address := address (ew σ); conn := Some (calls σ);
                 stream := Some (S (calls σ)); remote := remote (ew σ) |};
        calls := S (S (S (S (calls σ))));
        trace := trace σ ++ connectEffects (ew σ) (calls σ) |},
     Returned None).
Proof.
  intros (Hd & Ho & Hs & Hr). run_monad.
  rewrite Hd; simpl. rewrite Ho; simpl. rewrite Hs; simpl. rewrite Hr; simpl.
  rewrite <- !(assoc_L (++)). done.
Qed.

(** A connect in which some call fails: an error is returned; the effects
    hold no Connected event, no monitor and no batch; [conn] is assigned
    once the dial succeeded and [stream] once the stream was opened. *)
Lemma initializeInternal_fail σ :
  ¬ handshakeOK T (calls σ) →
  ∃ σ' err evs,
    initializeInternal T σ = (σ', Returned (Some err)) ∧
    trace σ' = trace σ ++ evs ∧
    Forall (λ e, isConnectedOrSpawn e = false ∧ isBatchSend e = false) evs ∧
    conn (ew σ') = (if grpc_Dial T (calls σ) is None then Some (calls σ) else conn (ew σ)) ∧
    stream (ew σ') =
      (if grpc_Dial T (calls σ) is None then
         if client_Receive T (S (calls σ)) is None then Some (S (calls σ))
         else stream (ew σ)
       else stream (ew σ)).
Proof.
  intros Hnot. run_monad.
  destruct (grpc_Dial T (calls σ)) as [e1|] eqn:Hd; simpl.
  { eexists _, _, [_]. repeat split; repeat constructor. }
  destruct (client_Receive T (S (calls σ))) as [e2|] eqn:Ho; simpl.
  { eexists _, _, [_; _]. rewrite <- !(assoc_L (++)). repeat split; repeat constructor. }
  destruct (stream_Send T (S (S (calls σ)))) as [e3|] eqn:Hs; simpl.
  { eexists _, _, [_; _; _]. rewrite <- !(assoc_L (++)). repeat split; repeat constructor. }
  destruct (stream_Recv T (S (S (S (calls σ))))) as [[ | | |]|e4] eqn:Hr; simpl;
    try solve [eexists _, _, [_; _; _; _]; rewrite <- !(assoc_L (++));
               repeat split; repeat constructor].
  exfalso. apply Hnot. by repeat split.
Qed.

(** [initialize] panics exactly when the connect returns an error, after
    its two-second sleep. *)
Lemma initialize_fail σ σ' (err : error) :
  initializeInternal T σ = (σ', Returned (Some err)) →
  initialize T σ =
    ({| ew := ew σ'; calls := calls σ'; trace := trace σ' ++ [EvSleep 2] |},
     Panicked (PanicError err)).
Proof.
  intros Hi. unfold initialize, bind. rewrite Hi. done.
Qed.

Lemma initialize_ok σ :
  handshakeOK T (calls σ) →
  initialize T σ =
    ({| ew := {| address := address (ew σ); conn := Some (calls σ);
                 stream := Some (S (calls σ)); remote := remote (ew σ) |};
        calls := S (S (S (S (calls σ))));
        trace := trace σ ++ connectEffects (ew σ) (calls σ) |},
     Returned tt).
Proof.
  intros Hok. unfold initialize, bind. by rewrite (initializeInternal_ok σ Hok).
Qed.

End Connect.

Lemma handshakeOK_dec (T : Transport) (n : nat) : handshakeOK T n ∨ ¬ handshakeOK T n.
Proof.
  unfold handshakeOK.
  destruct (grpc_Dial T n); [right; by intros (? & _)|].
  destruct (client_Receive T (S n)); [right; by intros (_ & ? & _)|].
  destruct (stream_Send T (S (S n))); [right; by intros (_ & _ & ? & _)|].
  destruct (stream_Recv T (S (S (S n)))) as [[ | | |]|];
    try (right; by intros (_ & _ & _ & ?)).
  by left.
Qed.

(** ** Sending a batch *)

Section Send.

Context {payload : Type}.
Variable Serialize : payload → Z → (list Byte.byte * string) + error.
Variable T : Transport.

Implicit Types σ : Machine payload.


Lemma after_nothing σ : after σ 0 [] = σ.
Proof. destruct σ. unfold after. simpl. by rewrite app_nil_r. Qed.

Lemma sendEnvelopes_stop (msg : list (BatchItem payload)) (ctx : Context payload) σ :
  assemble Serialize msg = LoopStop →
  sendEnvelopes Serialize T msg ctx σ = (after σ 0 [EvStop (ctx_Self ctx)], Returned tt).
Proof. intros Hs. unfold sendEnvelopes. by rewrite Hs. Qed.

Lemma sendEnvelopes_panic (msg : list (BatchItem payload)) (ctx : Context payload) σ
    (p : PanicValue) :
  assemble Serialize msg = LoopPanic p →
  sendEnvelopes Serialize T msg ctx σ = (σ, Panicked p).
Proof. intros Hs. unfold sendEnvelopes. by rewrite Hs. Qed.

Lemma sendEnvelopes_nil_stream (msg : list (BatchItem payload)) (ctx : Context payload) σ
    (s : LoopState) :
  assemble Serialize msg = LoopDone s → stream (ew σ) = None →
  sendEnvelopes Serialize T msg ctx σ = (σ, Panicked PanicNilDereference).
Proof.
  intros Hs Hnil. unfold sendEnvelopes, bind, getWriter. by rewrite Hs, Hnil.
Qed.

Lemma sendEnvelopes_sent (msg : list (BatchItem payload)) (ctx : Context payload) σ
    (s : LoopState) (st : nat) :
  assemble Serialize msg = LoopDone s → stream (ew σ) = Some st →
  stream_Send T (calls σ) = None →
  sendEnvelopes Serialize T msg ctx σ =
    (after σ 1 [EvSend st (RemoteMessage_MessageBatch (batchOf s)) None], Returned tt).
Proof.
  intros Hs Hst Hsend.
  unfold sendEnvelopes, bind, getWriter, doSend, bind, tick, emit, ret.
  rewrite Hs, Hst. simpl. by rewrite Hsend.
Qed.

Lemma sendEnvelopes_send_error (msg : list (BatchItem payload)) (ctx : Context payload) σ
    (s : LoopState) (st : nat) (err : error) :
  assemble Serialize msg = LoopDone s → stream (ew σ) = Some st →
  stream_Send T (calls σ) = Some err →
  sendEnvelopes Serialize T msg ctx σ =
    (after σ 1 [EvSend st (RemoteMessage_MessageBatch (batchOf s)) (Some err);
                EvStash (ctx_Message ctx)],
     Panicked (PanicString "restart it")).
Proof.
  intros Hs Hst Hsend.
  unfold sendEnvelopes, bind, getWriter, doSend, bind, tick, emit, ret, panic.
  rewrite Hs, Hst. simpl. rewrite Hsend. unfold after. simpl.
  by rewrite <- (assoc_L (++)).
Qed.

(** A batch that holds a termination event never runs the loop to its
    end. *)
Lemma envelopeLoop_notice (msg : list (BatchItem payload)) (addr : string)
    (i : nat) (s : LoopState) :
  ItemTerminated addr ∈ msg →
  envelopeLoop Serialize i msg s = LoopStop ∨
  ∃ p, envelopeLoop Serialize i msg s = LoopPanic p.
Proof.
  revert i s. induction msg as [|item msg IH]; intros i s Hin.
  - by apply elem_of_nil in Hin.
  - destruct item as [a|rd|]; simpl; [by left| |right; eauto].
    destruct (Serialize (message rd) serializerID) as [[bytes tn]|err]; [|right; eauto].
    apply IH. apply elem_of_cons in Hin as [Heq|Hin]; [done|done].
Qed.

(** The loop stops at the first termination event when the deliveries
    before it serialize. *)
Lemma envelopeLoop_stop (rds : list (remoteDeliver payload)) (addr : string)
    (post : list (BatchItem payload)) (i : nat) (s : LoopState) :
  Forall (serializes Serialize) rds →
  envelopeLoop Serialize i ((ItemDeliver <$> rds) ++ ItemTerminated addr :: post) s = LoopStop.
Proof.
  intros Hall. revert i s.
  induction Hall as [|rd rds [[bytes tn] Hser] _ IH]; intros i s; simpl; [done|].
  unfold serialized in Hser. rewrite Hser. apply IH.
Qed.

Lemma envelopeLoop_stop_inv (msg : list (BatchItem payload)) (i : nat) (s : LoopState) :
  envelopeLoop Serialize i msg s = LoopStop →
  ∃ rds addr post, msg = (ItemDeliver <$> rds) ++ ItemTerminated addr :: post ∧
                   Forall (serializes Serialize) rds.
Proof.
  revert i s. induction msg as [|[addr|rd|] msg IH]; intros i s; simpl; try done.
  - intros _. exists [], addr, msg. split; [done|constructor].
  - destruct (Serialize (message rd) serializerID) as [[bytes tn]|err] eqn:Hser; [|done].
    intros (rds & addr & post & -> & Hall)%IH.
    exists (rd :: rds), addr, post. split; [done|].
    constructor; [|done]. exists (bytes, tn). done.
Qed.

(** The loop only panics on the first element that is not a delivery
    with a serializable payload: a delivery whose payload fails to
    serialize, or an element of another type. *)
Lemma envelopeLoop_panic_inv (msg : list (BatchItem payload)) (i : nat) (s : LoopState)
    (p : PanicValue) :
  envelopeLoop Serialize i msg s = LoopPanic p →
  ∃ rds post, Forall (serializes Serialize) rds ∧
    ((∃ bad err, msg = (ItemDeliver <$> rds) ++ ItemDeliver bad :: post ∧
                 serialized Serialize bad = inr err ∧ p = PanicError err) ∨
     (msg = (ItemDeliver <$> rds) ++ ItemOther :: post ∧ p = PanicNilDereference)).
Proof.
  revert i s. induction msg as [|[addr|rd|] msg IH]; intros i s; simpl; try done.
  - destruct (Serialize (message rd) serializerID) as [[bytes tn]|err] eqn:Hser.
    + intros (rds & post & Hall & Hcase)%IH. exists (rd :: rds), post. split.
      * constructor; [|done]. by exists (bytes, tn).
      * destruct Hcase as [(bad & err & -> & Hbad & ->)|[-> ->]].
        -- left. by exists bad, err.
        -- by right.
    + intros [= <-]. exists [], msg. split; [constructor|]. left. by exists rd, err.
  - intros [= <-]. exists [], msg. split; [constructor|]. by right.
Qed.

(** C6 (amended).  A batch that holds a termination event is never
    transmitted: handling it makes no transport call and leaves the
    writer untouched.  It requests the actor's stop and returns exactly
    when every element before the first termination event is a delivery
    whose payload serializes.  Otherwise it panics on the first element
    that is not such a delivery, which comes before the event: with the
    serializer's error for a payload that does not serialize, on the nil
    delivery pointer for an element of another type; the panic comes
    without any effect, so no stop is requested. *)
Theorem termination_notice_in_batch (msg : list (BatchItem payload)) (addr : string)
    (ctx : Context payload) σ :
  ItemTerminated addr ∈ msg →
  (sendEnvelopes Serialize T msg ctx σ = (after σ 0 [EvStop (ctx_Self ctx)], Returned tt) ∨
   ∃ p, sendEnvelopes Serialize T msg ctx σ = (σ, Panicked p)) ∧
  (∀ rds a post,
     msg = (ItemDeliver <$> rds) ++ ItemTerminated a :: post →
     Forall (serializes Serialize) rds →
     sendEnvelopes Serialize T msg ctx σ = (after σ 0 [EvStop (ctx_Self ctx)], Returned tt)) ∧
  (sendEnvelopes Serialize T msg ctx σ = (after σ 0 [EvStop (ctx_Self ctx)], Returned tt) →
   ∃ rds a post, msg = (ItemDeliver <$> rds) ++ ItemTerminated a :: post ∧
                 Forall (serializes Serialize) rds) ∧
  ((¬ ∃ rds a post, msg = (ItemDeliver <$> rds) ++ ItemTerminated a :: post ∧
                    Forall (serializes Serialize) rds) →
   ∃ rds post p,
     Forall (serializes Serialize) rds ∧ ItemTerminated addr ∈ post ∧
     ((∃ bad err, msg = (ItemDeliver <$> rds) ++ ItemDeliver bad :: post ∧
                  serialized Serialize bad = inr err ∧ p = PanicError err) ∨
      (msg = (ItemDeliver <$> rds) ++ ItemOther :: post ∧ p = PanicNilDereference)) ∧
     sendEnvelopes Serialize T msg ctx σ = (σ, Panicked p)).
Proof.
  intros Hin.
  pose proof (envelopeLoop_notice msg addr 0 (initialLoopState (length msg)) Hin) as Hloop.
  split; [|split; [|split]].
  - destruct Hloop as [Hstop|[p Hp]].
    + left. by apply sendEnvelopes_stop.
    + right. exists p. by apply sendEnvelopes_panic.
  - intros rds a post -> Hall. apply sendEnvelopes_stop.
    unfold assemble. by apply envelopeLoop_stop.
  - intros Hres. destruct Hloop as [Hstop|[p Hp]].
    + by eapply envelopeLoop_stop_inv.
    + by rewrite (sendEnvelopes_panic msg ctx σ p Hp) in Hres.
  - intros Hnot. destruct Hloop as [Hstop|[p Hp]].
    + exfalso. apply Hnot. by eapply envelopeLoop_stop_inv.
    + destruct (envelopeLoop_panic_inv _ _ _ _ Hp) as (rds & post & Hall & Hcase).
      exists rds, post, p. split; [done|].
      split; [|split; [done|by apply sendEnvelopes_panic]].
      assert (∀ item, msg = (ItemDeliver <$> rds) ++ item :: post →
                      item ≠ ItemTerminated addr → ItemTerminated addr ∈ post) as Hpost.
      { intros item -> Hne. apply elem_of_app in Hin as [Hin|Hin].
        - by apply list_elem_of_fmap in Hin as (rd & ? & _).
        - apply elem_of_cons in Hin as [Heq|Hin]; [by subst|done]. }
      destruct Hcase as [(bad & err & Hmsg & _)|[Hmsg _]]; by eapply Hpost.
Qed.

(** C9.  When the loop has built the batch and the send on the writer's
    stream returns an error, handling the batch message makes that one
    send, stashes the batch message, and panics. *)
Theorem send_failure_stashes_and_panics (self : PID) (msg : list (BatchItem payload))
    (s : LoopState) (st : nat) (err : error) σ :
  assemble Serialize msg = LoopDone s →
  stream (ew σ) = Some st →
  stream_Send T (calls σ) = Some err →
  Receive Serialize T {| ctx_Message := Batch msg; ctx_Self := self |} σ =
    (after σ 1 [EvSend st (RemoteMessage_MessageBatch (batchOf s)) (Some err);
                EvStash (Batch msg)],
     Panicked (PanicString "restart it")).
Proof.
  intros Hs Hst Hsend. unfold Receive. simpl.
  by rewrite (sendEnvelopes_send_error msg _ σ s st err).
Qed.

End Send.

(** ** The component *)

Lemma gated_app {payload : Type} (tr evs : list (Effect payload)) :
  gated tr → Forall (λ e, isBatchSend e = false) evs → gated (tr ++ evs).
Proof.
  intros Hg Hno i s b r Hi.
  apply lookup_app_Some in Hi as [Hi|[_ Hi]].
  - destruct (Hg i s b r Hi) as (j & Hj & Hlk). exists j. split; [done|].
    by apply lookup_app_l_Some.
  - rewrite Forall_lookup in Hno. by specialize (Hno _ _ Hi).
Qed.

Lemma handshaken_app {payload : Type} (tr evs : list (Effect payload)) (s : nat) :
  handshaken tr s → handshaken (tr ++ evs) s.
Proof. intros (j & Hj). exists j. by apply lookup_app_l_Some. Qed.

Lemma gated_send {payload : Type} (tr : list (Effect payload)) (s : nat)
    (m : RemoteMessage) (r : option error) :
  gated tr → handshaken tr s → gated (tr ++ [EvSend s m r]).
Proof.
  intros Hg (j & Hj) i s' b r' Hi.
  apply lookup_app_Some in Hi as [Hi|[Hge Hi]].
  - destruct (Hg i s' b r' Hi) as (j' & Hj' & Hlk). exists j'. split; [done|].
    by apply lookup_app_l_Some.
  - apply list_lookup_singleton_Some in Hi as [_ [= -> _ _]].
    exists j. apply lookup_lt_Some in Hj as Hlt. split; [lia|].
    by apply lookup_app_l_Some.
Qed.

Section Component.

Context {payload : Type}.
Variable Serialize : payload → Z → (list Byte.byte * string) + error.
Variable T : Transport.

Implicit Types σ : Machine payload.

Lemma ready_fresh (r : Remote) (addr : string) :
  ready (freshMachine r addr : Machine payload).
Proof.
  split; [|done]. intros i s b res Hi. simpl in Hi. by rewrite lookup_nil in Hi.
Qed.

Lemma ready_after σ (n : nat) (evs : list (Effect payload)) :
  ready σ → Forall (λ e, isBatchSend e = false) evs → ready (after σ n evs).
Proof.
  intros (Hg & Hs) Hno. split; simpl.
  - by apply gated_app.
  - intros s Hst. by apply handshaken_app, Hs.
Qed.

Lemma initialize_step σ σ' (r : Outcome unit) :
  ready σ → initialize T σ = (σ', r) →
  gated (trace σ') ∧ (r = Returned tt → ready σ').
Proof.
  intros (Hg & Hs) Hinit.
  destruct (handshakeOK_dec T (calls σ)) as [Hok|Hnot].
  - rewrite (initialize_ok T σ Hok) in Hinit. injection Hinit as <- <-.
    assert (gated (trace σ ++ connectEffects (ew σ) (calls σ))) as Hg'.
    { apply gated_app; [done|]. repeat constructor. }
    split; [done|]. intros _. split; [done|]. simpl.
    intros s [= <-]. exists (length (trace σ) + 3).
    rewrite lookup_app_r by lia.
    replace (length (trace σ) + 3 - length (trace σ)) with 3 by lia. done.
  - destruct (initializeInternal_fail T σ Hnot) as (σ1 & err & evs & Hi & Htr & Hevs & _).
    rewrite (initialize_fail T σ σ1 err Hi) in Hinit. injection Hinit as <- <-.
    split; [|done]. simpl. rewrite Htr, <- (assoc_L (++)).
    apply gated_app; [done|]. apply Forall_app. split.
    + eapply Forall_impl; [exact Hevs|]. by intros e [_ ?].
    + repeat constructor.
Qed.

Lemma closeClientConn_step σ :
  ∃ n evs, closeClientConn T σ = (after σ n evs, Returned tt) ∧
           Forall (λ e, isBatchSend e = false) evs.
Proof.
  unfold closeClientConn, bind, getWriter, tick, emit, ret. simpl.
  destruct (stream (ew σ)) as [s|], (conn (ew σ)) as [c|]; simpl.
  - exists 2, [EvCloseSend s (stream_CloseSend T (calls σ));
               EvCloseConn c (conn_Close T (S (calls σ)))].
    unfold after. simpl. rewrite <- (assoc_L (++)). split; [done|repeat constructor].
  - exists 1, [EvCloseSend s (stream_CloseSend T (calls σ))].
    split; [done|repeat constructor].
  - exists 1, [EvCloseConn c (conn_Close T (calls σ))].
    split; [done|repeat constructor].
  - exists 0, []. rewrite after_nothing. split; [done|constructor].
Qed.

Lemma sendEnvelopes_step (msg : list (BatchItem payload)) (ctx : Context payload)
    σ σ' (r : Outcome unit) :
  ready σ → sendEnvelopes Serialize T msg ctx σ = (σ', r) →
  gated (trace σ') ∧ (r = Returned tt → ready σ').
Proof.
  intros Hready Hsend. pose proof Hready as (Hg & Hs).
  destruct (assemble Serialize msg) as [s| |p] eqn:Hasm.
  - destruct (stream (ew σ)) as [st|] eqn:Hst.
    + destruct (stream_Send T (calls σ)) as [err|] eqn:Hres.
      * rewrite (sendEnvelopes_send_error Serialize T msg ctx σ s st err) in Hsend by done.
        injection Hsend as <- <-. split; [|done]. simpl.
        change [EvSend st (RemoteMessage_MessageBatch (batchOf s)) (Some err);
                EvStash (ctx_Message ctx)]
          with ([EvSend st (RemoteMessage_MessageBatch (batchOf s)) (Some err)]
                ++ [EvStash (ctx_Message ctx)] : list (Effect payload)).
        rewrite (assoc_L (++)). apply gated_app; [|repeat constructor].
        apply gated_send; auto.
      * rewrite (sendEnvelopes_sent Serialize T msg ctx σ s st) in Hsend by done.
        injection Hsend as <- <-.
        assert (gated (trace σ ++ [EvSend st (RemoteMessage_MessageBatch (batchOf s)) None]))
          as Hg' by (apply gated_send; auto).
        split; [done|]. intros _. split; [done|]. simpl.
        intros s' Hs'. rewrite Hst in Hs'. by apply handshaken_app, Hs.
    + rewrite (sendEnvelopes_nil_stream Serialize T msg ctx σ s) in Hsend by done.
      injection Hsend as <- <-. done.
  - rewrite (sendEnvelopes_stop Serialize T msg ctx σ) in Hsend by done.
    injection Hsend as <- <-.
    assert (ready (after σ 0 [EvStop (ctx_Self ctx)])) as Hr
      by (apply ready_after; [done|repeat constructor]).
    split; [apply Hr|done].
  - rewrite (sendEnvelopes_panic Serialize T msg ctx σ p) in Hsend by done.
    injection Hsend as <- <-. done.
Qed.

Lemma Receive_step (ctx : Context payload) σ σ' (r : Outcome unit) :
  ready σ → Receive Serialize T ctx σ = (σ', r) →
  gated (trace σ') ∧ (r = Returned tt → ready σ').
Proof.
  intros Hready. unfold Receive.
  destruct (ctx_Message ctx) as [ | | |addr|msg| | ].
  - by apply initialize_step.
  - destruct (closeClientConn_step σ) as (n & evs & -> & Hno). intros [= <- <-].
    pose proof (ready_after σ n evs Hready Hno) as Hr. split; [apply Hr|done].
  - destruct (closeClientConn_step σ) as (n & evs & -> & Hno). intros [= <- <-].
    pose proof (ready_after σ n evs Hready Hno) as Hr. split; [apply Hr|done].
  - unfold emit. intros [= <- <-].
    assert (ready (after σ 0 [EvStop (ctx_Self ctx)])) as Hr
      by (apply ready_after; [done|repeat constructor]).
    split; [apply Hr|]. intros _. exact Hr.
  - by apply sendEnvelopes_step.
  - unfold ret. intros [= <- <-]. split; [apply Hready|done].
  - unfold ret. intros [= <- <-]. split; [apply Hready|done].
Qed.

Lemma runActor_gated (self : PID) (msgs : list (Message payload)) σ :
  ready σ → gated (trace (runActor Serialize T self msgs σ).1).
Proof.
  revert σ. induction msgs as [|m msgs IH]; intros σ Hready; simpl.
  - apply Hready.
  - unfold bind.
    destruct (Receive Serialize T {| ctx_Message := m; ctx_Self := self |} σ)
      as [σ' r] eqn:Hrecv.
    destruct (Receive_step _ σ σ' r Hready Hrecv) as (Hg & Hr).
    destruct r as [[]|p]; simpl; [|done].
    apply IH. by apply Hr.
Qed.

(** Between two messages the writer is never left half connected. *)
Lemma runActor_ready (self : PID) (msgs : list (Message payload)) σ σ' :
  ready σ → runActor Serialize T self msgs σ = (σ', Returned tt) → ready σ'.
Proof.
  revert σ. induction msgs as [|m msgs IH]; intros σ Hready; simpl.
  - unfold ret. by intros [= <-].
  - unfold bind.
    destruct (Receive Serialize T {| ctx_Message := m; ctx_Self := self |} σ)
      as [σ1 r] eqn:Hrecv.
    destruct (Receive_step _ σ σ1 r Hready Hrecv) as (_ & Hr).
    destruct r as [[]|p]; [|done]. apply IH. by apply Hr.
Qed.

(** C7.  A connect whose four transport calls all succeed returns nil
    and publishes the Connected event last, after the connect response
    was received.  A connect in which a call fails, or whose response is
    of another variant, returns an error; it publishes no Connected
    event, starts no monitor and sends no batch, and the handler of the
    start signal then sleeps and panics with that error.  The panic ends
    the incarnation: whatever messages are queued behind the start
    signal, none of them is handled, so no sender's batch ever meets the
    writer that the failed connect leaves behind.  A connect publishes
    the Connected event or starts the monitor only when all four calls
    succeed.  And in every run of a writer made by the producer, whenever
    the writer is back waiting for its next message, the stream it holds,
    if any, is one on which the connect response was received. *)
Theorem connect_all_or_error (self : PID) (rest : list (Message payload)) σ :
  (handshakeOK T (calls σ) →
   initializeInternal T σ =
     ({| ew := {| address := address (ew σ); conn := Some (calls σ);
                  stream := Some (S (calls σ)); remote := remote (ew σ) |};
         calls := S (S (S (S (calls σ))));
         trace := trace σ ++ connectEffects (ew σ) (calls σ) |},
      Returned None)) ∧
  (¬ handshakeOK T (calls σ) →
   ∃ σ' err evs,
     initializeInternal T σ = (σ', Returned (Some err)) ∧
     trace σ' = trace σ ++ evs ∧
     Forall (λ e, isConnectedOrSpawn e = false ∧ isBatchSend e = false) evs ∧
     runActor Serialize T self (actor_Started :: rest) σ =
       ({| ew := ew σ'; calls := calls σ'; trace := trace σ ++ evs ++ [EvSleep 2] |},
        Panicked (PanicError err))) ∧
  (∀ σ' r evs,
     initializeInternal T σ = (σ', r) → trace σ' = trace σ ++ evs →
     Exists (λ e, isConnectedOrSpawn e = true) evs →
     handshakeOK T (calls σ) ∧ r = Returned None) ∧
  (∀ (r : Remote) (addr : string) (msgs : list (Message payload)) σ',
     runActor Serialize T self msgs (freshMachine r addr) = (σ', Returned tt) →
     ∀ s, stream (ew σ') = Some s → handshaken (trace σ') s).
Proof.
  split; [apply initializeInternal_ok|]. split; [|split].
  - intros Hnot.
    destruct (initializeInternal_fail T σ Hnot) as (σ' & err & evs & Hi & Htr & Hevs & _).
    exists σ', err, evs. repeat (split; [done|]).
    simpl. unfold bind, Receive. simpl.
    rewrite (initialize_fail T σ σ' err Hi), Htr. by rewrite <- (assoc_L (++)).
  - intros σ' r evs Hi Htr Hex.
    destruct (handshakeOK_dec T (calls σ)) as [Hok|Hnot].
    + split; [done|]. rewrite (initializeInternal_ok T σ Hok) in Hi. congruence.
    + exfalso.
      destruct (initializeInternal_fail T σ Hnot) as (σ1 & err & evs1 & Hi1 & Htr1 & Hevs & _).
      assert (σ1 = σ') as -> by congruence.
      rewrite Htr in Htr1. apply app_inv_head in Htr1 as ->.
      apply Exists_exists in Hex as (e & He & Htrue).
      rewrite Forall_forall in Hevs. destruct (Hevs e He) as [Hfalse _]. congruence.
  - intros r addr msgs σ' Hrun.
    by apply (runActor_ready self msgs _ σ' (ready_fresh r addr) Hrun).
Qed.

(** C8.  In every run of a writer made by the producer, whatever the
    messages and the transport, a batch is only ever sent on a stream
    after a connect response was received on that stream.  When the first
    message is the start signal and the connect fails, the run ends in a
    panic and its trace holds no batch send at all. *)
Theorem handshake_gating (r : Remote) (addr : string) (self : PID)
    (msgs : list (Message payload)) :
  gated (trace (runActor Serialize T self msgs (freshMachine r addr)).1) ∧
  ∀ rest, msgs = actor_Started :: rest → ¬ handshakeOK T 0 →
    (∃ p, (runActor Serialize T self msgs (freshMachine r addr)).2 = Panicked p) ∧
    Forall (λ e, isBatchSend e = false)
      (trace (runActor Serialize T self msgs (freshMachine r addr)).1).
Proof.
  split; [apply runActor_gated, ready_fresh|].
  intros rest -> Hnot. simpl. unfold bind, Receive. simpl.
  destruct (initializeInternal_fail T (freshMachine r addr : Machine payload) Hnot)
    as (σ1 & err & evs & Hi & Htr & Hevs & _).
  rewrite (initialize_fail T _ σ1 err Hi). simpl.
  split; [eauto|]. rewrite Htr. simpl. apply Forall_app. split.
  - eapply Forall_impl; [exact Hevs|]. by intros e [_ ?].
  - repeat constructor.
Qed.

End Component.

(** ** Concrete runs *)

Lemma noSlash_keysDistinguish_Forall (pids : list (option PID)) :
  Forall (λ pid, if pid is Some p then hasSlash (Address p) = false else True) pids →
  keysDistinguish pids.
Proof.
  intros Hall. apply noSlash_keysDistinguish. intros p Hp.
  rewrite Forall_forall in Hall. by apply (Hall (Some p)).
Qed.

Lemma exampleDeliveries_serialize : Forall (serializes exampleSerialize) exampleDeliveries.
Proof.
  repeat (apply Forall_cons; split; [eexists; unfold serialized; simpl; reflexivity|]).
  constructor.
Qed.

Lemma order_and_type_table_witness :
  ∃ s, assemble exampleSerialize (ItemDeliver <$> exampleDeliveries) = LoopDone s ∧
       length (Envelopes (batchOf s)) = 3 ∧
       TypeNames (batchOf s) = ["Ping"; "Pong"].
Proof.
  destruct (order_and_type_table exampleSerialize exampleDeliveries)
    as (s & Hs & Hlen & Hnames & _).
  - exact exampleDeliveries_serialize.
  - exists s. split; [exact Hs|]. split; [exact Hlen|exact Hnames].
Defined.

Lemma collidingDeliveries_serialize : Forall (serializes exampleSerialize) collidingDeliveries.
Proof.
  repeat (apply Forall_cons; split; [eexists; unfold serialized; simpl; reflexivity|]).
  constructor.
Qed.

Lemma collidingDeliveries_targets (p : PID) :
  Some p ∈ target <$> collidingDeliveries → Address p = "10.0.0.2:8090".
Proof.
  simpl. rewrite !elem_of_cons.
  intros [[= ->]|[[= ->]|Hin]]; [done|done|]. by apply elem_of_nil in Hin.
Qed.

Lemma collidingDeliveries_senders : ¬ keysDistinguish (sender <$> collidingDeliveries).
Proof.
  intros Hdist.
  specialize (Hdist (mkPID "unix:///run/actors" "node1/echo" 1)
                    (mkPID "unix:///run/actors/node1" "echo" 2)).
  assert (identity (mkPID "unix:///run/actors" "node1/echo" 1)
          = identity (mkPID "unix:///run/actors/node1" "echo" 2)) as Heq; [|discriminate Heq].
  apply Hdist; [| |reflexivity]; simpl; rewrite !elem_of_cons; auto.
Qed.

Lemma sentinel_and_offset_witness :
  (∃ s, assemble exampleSerialize (ItemDeliver <$> exampleDeliveries) = LoopDone s ∧
     indicesResolve target Target (Targets (batchOf s)) exampleDeliveries
       (Envelopes (batchOf s)) ∧
     indicesResolve sender Sender (Senders (batchOf s)) exampleDeliveries
       (Envelopes (batchOf s))) ∧
  (∃ s, assemble exampleSerialize (ItemDeliver <$> collidingDeliveries) = LoopDone s ∧
     indicesResolve target Target (Targets (batchOf s)) collidingDeliveries
       (Envelopes (batchOf s)) ∧
     ¬ indicesResolve sender Sender (Senders (batchOf s)) collidingDeliveries
         (Envelopes (batchOf s))).
Proof.
  split.
  - destruct (sentinel_and_offset exampleSerialize exampleDeliveries)
      as (s & Hs & _ & Htg & Hsn & _).
    + exact exampleDeliveries_serialize.
    + reflexivity.
    + exists s. split; [exact Hs|]. split.
      * apply (proj2 Htg), noSlash_keysDistinguish_Forall. repeat constructor.
      * apply (proj2 Hsn), noSlash_keysDistinguish_Forall. repeat constructor.
  - destruct (sentinel_and_offset exampleSerialize collidingDeliveries)
      as (s & Hs & _ & _ & Hsn & Htg).
    + exact collidingDeliveries_serialize.
    + reflexivity.
    + exists s. split; [exact Hs|]. split.
      * exact (Htg "10.0.0.2:8090" collidingDeliveries_targets).
      * intros Hres. exact (collidingDeliveries_senders (proj1 Hsn Hres)).
Defined.

Lemma dedup_and_request_ids_witness :
  (∃ s, assemble exampleSerialize (ItemDeliver <$> exampleDeliveries) = LoopDone s ∧
     internedTable (target <$> exampleDeliveries) (Targets (batchOf s)) ∧
     ∃ e1 e2, Envelopes (batchOf s) !! 0 = Some (Some e1) ∧
              Envelopes (batchOf s) !! 1 = Some (Some e2) ∧
              Target e1 = Target e2 ∧
              TargetRequestId e1 = 5%Z ∧ TargetRequestId e2 = 9%Z) ∧
  (∃ s, assemble exampleSerialize (ItemDeliver <$> collidingDeliveries) = LoopDone s ∧
     internedTable (target <$> collidingDeliveries) (Targets (batchOf s)) ∧
     ¬ internedTable (sender <$> collidingDeliveries) (Senders (batchOf s))).
Proof.
  split.
  - destruct (dedup_and_request_ids exampleSerialize exampleDeliveries)
      as (s & Hs & _ & _ & _ & _ & Hper & Hshare & Htable & _).
    + exact exampleDeliveries_serialize.
    + reflexivity.
    + exists s. split; [exact Hs|]. split.
      * apply (proj2 Htable), noSlash_keysDistinguish_Forall. repeat constructor.
      * destruct (Hper 0 _ eq_refl) as (e1 & He1 & _).
        destruct (Hper 1 _ eq_refl) as (e2 & He2 & _).
        exists e1, e2. split; [exact He1|]. split; [exact He2|].
        exact (Hshare 0 1 _ _ _ _ e1 e2 eq_refl eq_refl eq_refl eq_refl eq_refl He1 He2).
  - destruct (dedup_and_request_ids exampleSerialize collidingDeliveries)
      as (s & Hs & _ & _ & _ & _ & _ & _ & _ & _ & Hsn & _ & Htg).
    + exact collidingDeliveries_serialize.
    + reflexivity.
    + exists s. split; [exact Hs|]. split.
      * exact (proj1 (Htg "10.0.0.2:8090" collidingDeliveries_targets)).
      * intros Htable. exact (collidingDeliveries_senders (proj1 Hsn Htable)).
Defined.

Lemma serializer_id_is_zero_witness :
  ∃ s, assemble exampleSerialize (ItemDeliver <$> exampleDeliveries) = LoopDone s ∧
       Forall (λ slot, ∃ e, slot = Some e ∧ SerializerId e = 0%Z) (Envelopes (batchOf s)).
Proof.
  destruct (assemble_deliveries exampleSerialize exampleDeliveries exampleDeliveries_serialize)
    as (s & Hs & _).
  exists s. split; [exact Hs|].
  exact (proj1 (serializer_id_is_zero exampleSerialize _ s Hs)).
Defined.

Lemma transport_error_publishes_once_witness :
  monitorLoop "10.0.0.2:8090" [RecvErr (errors_New "connection reset by peer")]
    = ([EndpointTerminatedEvent "10.0.0.2:8090"], Exited).
Proof.
  exact (proj1 (transport_error_publishes_once "10.0.0.2:8090"
                  (errors_New "connection reset by peer") [] eq_refl)).
Defined.

Lemma termination_notice_in_batch_witness :
  sendEnvelopes exampleSerialize okTransport
    [ItemDeliver (exampleDeliver "Ping" None None); ItemTerminated "10.0.0.2:8090"]
    {| ctx_Message := UnknownMessage; ctx_Self := exampleSelf |} connectedMachine
  = (after connectedMachine 0 [EvStop exampleSelf], Returned tt) ∧
  ∃ p, sendEnvelopes exampleSerialize okTransport
         [ItemDeliver (exampleDeliver "chan" None None); ItemTerminated "10.0.0.2:8090"]
         {| ctx_Message := UnknownMessage; ctx_Self := exampleSelf |} connectedMachine
       = (connectedMachine, Panicked p).
Proof.
  split.
  - refine (proj1 (proj2 (termination_notice_in_batch exampleSerialize okTransport _
                            "10.0.0.2:8090" _ connectedMachine _))
              [exampleDeliver "Ping" None None] _ [] eq_refl _).
    + apply elem_of_cons. right. apply elem_of_cons. by left.
    + apply Forall_cons. split; [|constructor].
      eexists. unfold serialized. simpl. reflexivity.
  - destruct (proj2 (proj2 (proj2 (termination_notice_in_batch exampleSerialize okTransport
                [ItemDeliver (exampleDeliver "chan" None None); ItemTerminated "10.0.0.2:8090"]
                "10.0.0.2:8090" {| ctx_Message := UnknownMessage; ctx_Self := exampleSelf |}
                connectedMachine ltac:(apply elem_of_cons; right; apply elem_of_cons; by left)))))
      as (rds & post & p & _ & _ & _ & Hres).
    + intros (rds & a & post & Heq & Hall).
      destruct rds as [|rd rds]; [discriminate Heq|].
      simpl in Heq. injection Heq as <- _.
      apply Forall_cons in Hall as [[r Hr] _]. discriminate Hr.
    + exists p. exact Hres.
Defined.

Lemma send_failure_stashes_and_panics_witness :
  ∃ s, assemble exampleSerialize (ItemDeliver <$> exampleDeliveries) = LoopDone s ∧
    Receive exampleSerialize brokenSendTransport
      {| ctx_Message := Batch (ItemDeliver <$> exampleDeliveries); ctx_Self := exampleSelf |}
      connectedMachine
    = (after connectedMachine 1
         [EvSend 1 (RemoteMessage_MessageBatch (batchOf s))
            (Some (errors_New "transport is closing"));
          EvStash (Batch (ItemDeliver <$> exampleDeliveries))],
       Panicked (PanicString "restart it")).
Proof.
  destruct (assemble_deliveries exampleSerialize exampleDeliveries exampleDeliveries_serialize)
    as (s & Hs & _).
  exists s. split; [exact Hs|].
  exact (send_failure_stashes_and_panics exampleSerialize brokenSendTransport exampleSelf
           _ s 1 (errors_New "transport is closing") connectedMachine Hs eq_refl eq_refl).
Defined.

Lemma connect_all_or_error_witness :
  ∃ σ' err,
    runActor exampleSerialize wrongVariantTransport exampleSelf
      [actor_Started; Batch (ItemDeliver <$> exampleDeliveries)]
      (freshMachine exampleRemote "10.0.0.2:8090")
    = (σ', Panicked (PanicError err)) ∧
    Forall (λ e, isConnectedOrSpawn e = false ∧ isBatchSend e = false) (trace σ').
Proof.
  destruct (proj1 (proj2 (connect_all_or_error exampleSerialize wrongVariantTransport
                            exampleSelf [Batch (ItemDeliver <$> exampleDeliveries)]
                            (freshMachine exampleRemote "10.0.0.2:8090"))))
    as (σ' & err & evs & _ & _ & Hevs & Hrun).
  - intros (_ & _ & _ & Hr). discriminate Hr.
  - eexists _, err. split; [exact Hrun|]. simpl.
    apply Forall_app. split; [exact Hevs|]. repeat constructor.
Defined.

Lemma handshake_gating_witness :
  Forall (λ e : Effect string, isBatchSend e = false)
    (trace (runActor exampleSerialize wrongVariantTransport exampleSelf
              [actor_Started; Batch (ItemDeliver <$> exampleDeliveries)]
              (freshMachine exampleRemote "10.0.0.2:8090")).1).
Proof.
  refine (proj2 (proj2 (handshake_gating exampleSerialize wrongVariantTransport exampleRemote
                          "10.0.0.2:8090" exampleSelf _) _ eq_refl _)).
  intros (_ & _ & _ & Hr). discriminate Hr.
Defined.

(** The batch assembled from the two colliding deliveries: one sender
    entry, the first sender, and both envelopes point at it. *)
Lemma collidingDeliveries_batch :
  ∃ s, assemble exampleSerialize (ItemDeliver <$> collidingDeliveries) = LoopDone s ∧
       Targets (batchOf s) = [mkPID "10.0.0.2:8090" "T1" 0] ∧
       Senders (batchOf s) = [mkPID "unix:///run/actors" "node1/echo" 0] ∧
       (λ slot : option MessageEnvelope, Sender <$> slot) <$> Envelopes (batchOf s)
         = [Some 1%Z; Some 1%Z].
Proof. eexists. split; [vm_compute; reflexivity|]. repeat split. Qed.

(** C2, failing input.  The second delivery's sender, the actor "echo"
    at "unix:///run/actors/node1", gets index 1, and position 0 of the
    sender table holds the actor "node1/echo" at "unix:///run/actors":
    the index of a present reference does not lead to that reference. *)
Lemma colliding_keys_break_offset :
  ¬ ∃ s, assemble exampleSerialize (ItemDeliver <$> collidingDeliveries) = LoopDone s ∧
      ∀ i rd, collidingDeliveries !! i = Some rd →
        ∃ e, Envelopes (batchOf s) !! i = Some (Some e) ∧
             offsetIndex (Targets (batchOf s)) (target rd) (Target e) ∧
             offsetIndex (Senders (batchOf s)) (sender rd) (Sender e).
Proof.
  intros (s & Hs & Hper).
  destruct collidingDeliveries_batch as (s' & Hs' & _ & Htable & _).
  assert (s' = s) as -> by congruence.
  destruct (Hper 1 _ eq_refl) as (e & _ & _ & (_ & k & Hk & _)).
  rewrite Htable in Hk. destruct k as [|k]; [discriminate Hk|].
  by rewrite lookup_cons, lookup_nil in Hk.
Qed.

(** C3, failing input.  The two senders are distinct actors, and the
    sender table holds the first only. *)
Lemma colliding_keys_break_dedup :
  ¬ ∃ s, assemble exampleSerialize (ItemDeliver <$> collidingDeliveries) = LoopDone s ∧
         internedTable (sender <$> collidingDeliveries) (Senders (batchOf s)).
Proof.
  intros (s & Hs & _ & _ & Hmem).
  destruct collidingDeliveries_batch as (s' & Hs' & _ & Htable & _).
  assert (s' = s) as -> by congruence.
  assert (cloneStripped (mkPID "unix:///run/actors/node1" "echo" 2) ∈ Senders (batchOf s))
    as Hin.
  { apply Hmem. exists (mkPID "unix:///run/actors/node1" "echo" 2). split; [|done].
    simpl. apply elem_of_cons. right. apply elem_of_cons. by left. }
  rewrite Htable in Hin. apply list_elem_of_singleton in Hin. discriminate Hin.
Qed.

(** C5, counterexample.  The peer ends the stream normally: the read
    returns end-of-file and no event is published for it, not one. *)
Lemma normal_close_publishes_nothing :
  (monitorBody "10.0.0.2:8090" (RecvErr io_EOF)).1 = [] ∧
  (monitorLoop "10.0.0.2:8090" [RecvErr io_EOF]).1 = [] ∧
  (monitorLoop "10.0.0.2:8090" [RecvErr io_EOF]).1
    ≠ [EndpointTerminatedEvent "10.0.0.2:8090"].
Proof. split; [reflexivity|]. split; [reflexivity|discriminate]. Qed.

(** C6, counterexample.  A payload that does not serialize comes before
    the termination event: the handler panics, no stop is requested. *)
Lemma notice_after_bad_payload_panics :
  sendEnvelopes exampleSerialize okTransport
    [ItemDeliver (exampleDeliver "chan" None None); ItemTerminated "10.0.0.2:8090"]
    {| ctx_Message := UnknownMessage; ctx_Self := exampleSelf |} connectedMachine
  = (connectedMachine, Panicked (PanicError (errors_New "msg must be proto.Message"))) ∧
  sendEnvelopes exampleSerialize okTransport
    [ItemDeliver (exampleDeliver "chan" None None); ItemTerminated "10.0.0.2:8090"]
    {| ctx_Message := UnknownMessage; ctx_Self := exampleSelf |} connectedMachine
  ≠ (after connectedMachine 0 [EvStop exampleSelf], Returned tt).
Proof. split; [reflexivity|discriminate]. Qed.


(** ** Further properties of the interning tables *)

(** X1.  Interning a name a second time returns the same id and changes
    neither the map nor the slice, and interning a name never changes the
    id of a name that is already in the map. *)
Theorem addToLookup_again_and_stable (m : gmap string Z) (name : string) (a : list string) :
  addToLookup (addToLookup m name a).2 name (addToLookup m name a).1.2
    = addToLookup m name a ∧
  ∀ other k, m !! other = Some k → (addToLookup m name a).2 !! other = Some k.
Proof.
  unfold addToLookup. destruct (m !! name) as [id|] eqn:Hlk; simpl.
  - rewrite Hlk. done.
  - rewrite lookup_insert_eq. split; [done|].
    intros other k Hother. rewrite lookup_insert_ne; [done|]. congruence.
Qed.

(** X2.  A reference whose address and id are those of the reference
    just interned gets the same index, whatever its request id, and the
    table and the map stay as they are. *)
Theorem addToPidLookup_ignores_request_id (m : gmap string Z) (p q : PID) (arr : list PID) :
  identity p = identity q →
  addToPidLookup (addToPidLookup m (Some p) arr).2 (Some q)
                 (addToPidLookup m (Some p) arr).1.2
    = addToPidLookup m (Some p) arr.
Proof.
  intros Hid.
  assert (pidKey q = pidKey p) as Hkey.
  { unfold identity in Hid. injection Hid as Ha Hi. unfold pidKey. by rewrite Ha, Hi. }
  unfold addToPidLookup. rewrite Hkey.
  destruct (m !! pidKey p) as [id|] eqn:Hlk; simpl.
  - by rewrite Hlk.
  - by rewrite lookup_insert_eq.
Qed.

(** X3.  [addToLookup] keeps the map and the slice in step: when the map
    sends each name of a duplicate-free slice to its position, it still
    does afterwards; the returned id is the position of the name in the
    new slice; and the slice is unchanged for a known name and grows by
    that name at its end for a new one. *)
Theorem addToLookup_keeps_sync (m : gmap string Z) (name : string) (a : list string) :
  tableInv m a →
  tableInv (addToLookup m name a).2 (addToLookup m name a).1.2 ∧
  (∃ k, (addToLookup m name a).1.2 !! k = Some name ∧
        (addToLookup m name a).1.1 = int32 (Z.of_nat k)) ∧
  (name ∈ a → (addToLookup m name a).1.2 = a) ∧
  (name ∉ a → (addToLookup m name a).1.2 = a ++ [name]).
Proof.
  intros Hinv.
  destruct (addToLookup m name a) as [[id a'] m'] eqn:Hadd. simpl.
  destruct (addToLookup_spec _ _ _ _ _ _ Hinv Hadd) as (Hinv' & Ha' & Hk).
  split; [done|]. split; [done|]. rewrite Ha'. split; intros Hin.
  - by rewrite decide_True.
  - by rewrite decide_False.
Qed.

(** ** Further properties of the assembled batch *)

Section MoreBatches.

Context {payload : Type}.
Variable Serialize : payload → Z → (list Byte.byte * string) + error.

Lemma envelope_at (rds : list (remoteDeliver payload)) (s : LoopState) (i : nat)
    (e : MessageEnvelope) :
  loopInv Serialize (length rds) rds s → envelopes s !! i = Some (Some e) →
  ∃ rd, rds !! i = Some rd ∧
        builtFrom Serialize (typeNamesArr s) (targetNamesArr s) (senderNamesArr s) rd e.
Proof.
  intros (_ & _ & _ & _ & Hlen & Henv) He.
  apply lookup_lt_Some in He as Hlt. rewrite Hlen in Hlt.
  apply lookup_lt_is_Some in Hlt as [rd Hrd].
  destruct (Henv i rd Hrd) as (e' & He' & Hbuilt).
  exists rd. split; [done|]. congruence.
Qed.

(** X4.  When no delivery of the batch has a sender, the sender table of
    the assembled batch is empty and every envelope has sender index 0
    and sender request id 0. *)
Theorem no_sender_empty_table (rds : list (remoteDeliver payload)) (s : LoopState) :
  assemble Serialize (ItemDeliver <$> rds) = LoopDone s →
  Forall (λ rd, sender rd = None) rds →
  Senders (batchOf s) = [] ∧
  Forall (λ slot, ∃ e, slot = Some e ∧ Sender e = 0%Z ∧ SenderRequestId e = 0%Z)
         (Envelopes (batchOf s)).
Proof.
  intros Hs Hnone. apply assemble_inv in Hs as Hinv.
  pose proof Hinv as (_ & _ & _ & (_ & _ & Hsrc & _) & Hlen & Henv). simpl.
  rewrite Forall_forall in Hnone.
  split.
  - destruct (senderNamesArr s) as [|c arr]; [done|].
    destruct (Hsrc c) as (p & Hp & _); [apply elem_of_cons; by left|].
    apply list_elem_of_fmap in Hp as (rd & Hrd & Hin).
    specialize (Hnone rd Hin). congruence.
  - apply Forall_lookup. intros i slot Hslot.
    apply lookup_lt_Some in Hslot as Hlt. rewrite Hlen in Hlt.
    apply lookup_lt_is_Some in Hlt as [rd Hrd].
    destruct (Henv i rd Hrd) as (e & He & _ & _ & Hsn & _ & Hsr & _).
    assert (sender rd = None) as Hno by (apply Hnone; by eapply list_elem_of_lookup_2).
    rewrite Hno in Hsn, Hsr. simpl in Hsn, Hsr.
    exists e. split; [congruence|done].
Qed.

(** X5.  In a batch assembled from fewer than 2^31 deliveries, whatever
    their addresses, no table is longer than the list of deliveries and
    every index of every envelope is in range: the type id is a position
    of the type table, the target and sender indices are between 0 and
    the length of their table. *)
Theorem indices_in_range (rds : list (remoteDeliver payload)) (s : LoopState) :
  assemble Serialize (ItemDeliver <$> rds) = LoopDone s →
  (Z.of_nat (length rds) < 2 ^ 31)%Z →
  length (TypeNames (batchOf s)) ≤ length rds ∧
  length (Targets (batchOf s)) ≤ length rds ∧
  length (Senders (batchOf s)) ≤ length rds ∧
  ∀ i e, Envelopes (batchOf s) !! i = Some (Some e) →
    (0 ≤ TypeId e < Z.of_nat (length (TypeNames (batchOf s))))%Z ∧
    (0 ≤ Target e ≤ Z.of_nat (length (Targets (batchOf s))))%Z ∧
    (0 ≤ Sender e ≤ Z.of_nat (length (Senders (batchOf s))))%Z.
Proof.
  intros Hs Hbound. apply assemble_inv in Hs as Hinv.
  pose proof Hinv as (_ & Hfirst & Htg & Hsn & _). simpl.
  assert (length (typeNamesArr s) ≤ length rds) as Hnames.
  { rewrite Hfirst.
    pose proof (firstSeen_length (omap (typeNameOf Serialize) rds)).
    pose proof (omap_length_le (typeNameOf Serialize) rds). lia. }
  pose proof Htg as (_ & Htlen & _). pose proof Hsn as (_ & Hslen & _).
  rewrite length_fmap in Htlen, Hslen.
  split; [done|]. split; [done|]. split; [done|].
  intros i e He.
  destruct (envelope_at rds s i e Hinv He) as (rd & _ & (tn & k & _ & Hk & Hid) & Ht & Hsd & _).
  apply lookup_lt_Some in Hk.
  rewrite int32_nat_small in Hid by lia.
  split; [lia|]. split.
  - eapply pidResolves_in_range; [exact Htg| |exact Ht]. by rewrite length_fmap.
  - eapply pidResolves_in_range; [exact Hsn| |exact Hsd]. by rewrite length_fmap.
Qed.

(** X6.  In a batch assembled from fewer than 2^31 deliveries, two
    deliveries with a target get the same target index exactly when the
    keys [Address/Id] of their targets are the same string, and a target
    index is 0 exactly when the delivery has no target. *)
Theorem same_target_index_iff_same_key (rds : list (remoteDeliver payload)) (s : LoopState)
    (i j : nat) (rd1 rd2 : remoteDeliver payload) (e1 e2 : MessageEnvelope) :
  assemble Serialize (ItemDeliver <$> rds) = LoopDone s →
  (Z.of_nat (length rds) < 2 ^ 31)%Z →
  rds !! i = Some rd1 → rds !! j = Some rd2 →
  Envelopes (batchOf s) !! i = Some (Some e1) →
  Envelopes (batchOf s) !! j = Some (Some e2) →
  (Target e1 = 0%Z ↔ target rd1 = None) ∧
  ∀ p1 p2, target rd1 = Some p1 → target rd2 = Some p2 →
    (Target e1 = Target e2 ↔ pidKey p1 = pidKey p2).
Proof.
  intros Hs Hbound Hi Hj He1 He2. apply assemble_inv in Hs as Hinv.
  pose proof Hinv as (_ & _ & Htg & _).
  assert (Z.of_nat (length (target <$> rds)) < 2 ^ 31)%Z as Hb by (by rewrite length_fmap).
  destruct (envelope_at rds s i e1 Hinv He1) as (rd1' & Hi' & _ & Ht1 & _).
  destruct (envelope_at rds s j e2 Hinv He2) as (rd2' & Hj' & _ & Ht2 & _).
  assert (rd1' = rd1) as -> by congruence. assert (rd2' = rd2) as -> by congruence.
  split.
  - by eapply pidResolves_in_range.
  - intros p1 p2 Hp1 Hp2. rewrite Hp1 in Ht1. rewrite Hp2 in Ht2.
    by eapply pidResolves_same_key.
Qed.

(** X7.  In a batch assembled from fewer than 2^31 deliveries, two
    envelopes have the same type id exactly when the payloads of their
    deliveries serialized to the same type name. *)
Theorem same_type_id_iff_same_name (rds : list (remoteDeliver payload)) (s : LoopState)
    (i j : nat) (rd1 rd2 : remoteDeliver payload) (e1 e2 : MessageEnvelope) :
  assemble Serialize (ItemDeliver <$> rds) = LoopDone s →
  (Z.of_nat (length rds) < 2 ^ 31)%Z →
  rds !! i = Some rd1 → rds !! j = Some rd2 →
  Envelopes (batchOf s) !! i = Some (Some e1) →
  Envelopes (batchOf s) !! j = Some (Some e2) →
  TypeId e1 = TypeId e2 ↔ typeNameOf Serialize rd1 = typeNameOf Serialize rd2.
Proof.
  intros Hs Hbound Hi Hj He1 He2. apply assemble_inv in Hs as Hinv.
  pose proof Hinv as ((_ & Hnd & _) & Hfirst & _).
  destruct (envelope_at rds s i e1 Hinv He1) as (rd1' & Hi' & (tn1 & k1 & Hser1 & Hk1 & Hid1) & _).
  destruct (envelope_at rds s j e2 Hinv He2) as (rd2' & Hj' & (tn2 & k2 & Hser2 & Hk2 & Hid2) & _).
  assert (rd1' = rd1) as -> by congruence. assert (rd2' = rd2) as -> by congruence.
  assert (length (typeNamesArr s) ≤ length rds) as Hnames.
  { rewrite Hfirst.
    pose proof (firstSeen_length (omap (typeNameOf Serialize) rds)).
    pose proof (omap_length_le (typeNameOf Serialize) rds). lia. }
  apply lookup_lt_Some in Hk1 as Hlt1. apply lookup_lt_Some in Hk2 as Hlt2.
  rewrite int32_nat_small in Hid1 by lia. rewrite int32_nat_small in Hid2 by lia.
  unfold typeNameOf. rewrite Hser1, Hser2, Hid1, Hid2. split.
  - intros Heq. assert (k1 = k2) as -> by lia. congruence.
  - intros [= ->]. f_equal. by eapply NoDup_lookup.
Qed.

End MoreBatches.

(** ** Further properties of the liveness loop *)

(** X8.  Every event the loop publishes is the Terminated event of its
    own address, whatever is read. *)
Theorem monitor_publishes_own_Terminated (address : string) (reads : list RecvResult) :
  Forall (λ ev, ev = EndpointTerminatedEvent address) (monitorLoop address reads).1.
Proof.
  induction reads as [|r reads IH]; simpl; [constructor|].
  unfold monitorBody.
  destruct (errors_Is_EOF (recvError r)); [|destruct (recvError r)].
  - destruct (monitorLoop address reads) as [evs st]. exact IH.
  - repeat constructor.
  - destruct (monitorLoop address reads) as [evs st]. simpl in *.
    constructor; [done|exact IH].
Qed.

(** X9.  The loop has exited after the given reads exactly when one of
    them returned an error that is not end-of-file. *)
Theorem monitor_exits_iff_fatal_read (address : string) (reads : list RecvResult) :
  (monitorLoop address reads).2 = Exited ↔ Exists (λ r, isFatalRead r = true) reads.
Proof.
  induction reads as [|r reads IH]; simpl.
  - split; [done|]. intros H. by apply Exists_nil in H.
  - rewrite Exists_cons, <- IH. unfold monitorBody.
    destruct r as [m|e]; simpl.
    + destruct (monitorLoop address reads) as [evs st]. simpl. split; [auto|].
      intros [?|?]; done.
    + destruct (unwraps_to_EOF e); simpl.
      * destruct (monitorLoop address reads) as [evs st]. simpl. split; [auto|].
        intros [?|?]; done.
      * split; auto.
Qed.

(** X10.  Up to the first read that fails with an error other than
    end-of-file the loop publishes one event per message read and none
    for an end-of-file; at that read it publishes one more and exits,
    and what would be read afterwards plays no part.  Without such a
    read it is still reading. *)
Theorem monitor_publishes_per_message (address : string) (pre rest : list RecvResult)
    (r : RecvResult) :
  Forall (λ x, isFatalRead x = false) pre →
  monitorLoop address pre
    = (replicate (countMessages pre) (EndpointTerminatedEvent address), BlockedInRecv) ∧
  (isFatalRead r = true →
   monitorLoop address (pre ++ r :: rest)
     = (replicate (S (countMessages pre)) (EndpointTerminatedEvent address), Exited)).
Proof.
  intros Hpre. induction Hpre as [|x pre Hx _ IH]; simpl.
  - split; [done|]. intros Hr. unfold monitorBody.
    destruct r as [m|e]; [done|]. simpl in *.
    destruct (unwraps_to_EOF e); done.
  - destruct IH as (IH1 & IH2). unfold monitorBody.
    destruct x as [m|e]; simpl in *.
    + rewrite IH1. split; [done|]. intros Hr. by rewrite (IH2 Hr).
    + destruct (unwraps_to_EOF e); [|done]. simpl.
      rewrite IH1. split; [done|]. intros Hr. by rewrite (IH2 Hr).
Qed.

(** ** Further properties of the handlers *)

Lemma closeClientConn_effects {payload : Type} (T : Transport) (σ : Machine payload) :
  closeClientConn T σ
    = (after σ (length (closeEffects T σ)) (closeEffects T σ), Returned tt).
Proof.
  unfold closeClientConn, closeEffects, bind, getWriter, tick, emit, ret, after. simpl.
  destruct (stream (ew σ)) as [s|], (conn (ew σ)) as [c|]; simpl.
  - by rewrite <- (assoc_L (++)).
  - done.
  - done.
  - destruct σ. simpl. by rewrite app_nil_r.
Qed.

Section MoreHandlers.

Context {payload : Type}.
Variable Serialize : payload → Z → (list Byte.byte * string) + error.
Variable T : Transport.

Implicit Types σ : Machine payload.

Lemma envelopeLoop_bad (rds : list (remoteDeliver payload)) (bad : remoteDeliver payload)
    (err : error) (post : list (BatchItem payload)) (i : nat) (s : LoopState) :
  Forall (serializes Serialize) rds → serialized Serialize bad = inr err →
  envelopeLoop Serialize i ((ItemDeliver <$> rds) ++ ItemDeliver bad :: post) s
    = LoopPanic (PanicError err).
Proof.
  intros Hall Hbad. revert i s.
  induction Hall as [|rd rds [[bytes tn] Hser] _ IH]; intros i s; simpl.
  - unfold serialized in Hbad. by rewrite Hbad.
  - unfold serialized in Hser. rewrite Hser. apply IH.
Qed.

Lemma envelopeLoop_other (rds : list (remoteDeliver payload))
    (post : list (BatchItem payload)) (i : nat) (s : LoopState) :
  Forall (serializes Serialize) rds →
  envelopeLoop Serialize i ((ItemDeliver <$> rds) ++ ItemOther :: post) s
    = LoopPanic PanicNilDereference.
Proof.
  intros Hall. revert i s.
  induction Hall as [|rd rds [[bytes tn] Hser] _ IH]; intros i s; simpl; [done|].
  unfold serialized in Hser. rewrite Hser. apply IH.
Qed.

(** X11.  When the first element of a batch that is not a delivery with
    a serializable payload is a delivery whose payload fails to
    serialize, handling the batch panics with the serializer's error: no
    transport call is made, nothing is sent or stashed, no stop is
    requested, and the writer is untouched, also when a termination event
    comes later in the batch. *)
Theorem unserializable_payload_aborts (rds : list (remoteDeliver payload))
    (bad : remoteDeliver payload) (err : error) (post : list (BatchItem payload))
    (self : PID) σ :
  Forall (serializes Serialize) rds → serialized Serialize bad = inr err →
  Receive Serialize T
    {| ctx_Message := Batch ((ItemDeliver <$> rds) ++ ItemDeliver bad :: post);
       ctx_Self := self |} σ
  = (σ, Panicked (PanicError err)).
Proof.
  intros Hall Hbad. unfold Receive. simpl. apply sendEnvelopes_panic.
  unfold assemble. by apply envelopeLoop_bad.
Qed.

(** X12.  When that first element is neither a delivery nor a
    termination event, handling the batch panics on the nil delivery
    pointer, again without any effect. *)
Theorem foreign_element_panics (rds : list (remoteDeliver payload))
    (post : list (BatchItem payload)) (self : PID) σ :
  Forall (serializes Serialize) rds →
  Receive Serialize T
    {| ctx_Message := Batch ((ItemDeliver <$> rds) ++ ItemOther :: post);
       ctx_Self := self |} σ
  = (σ, Panicked PanicNilDereference).
Proof.
  intros Hall. unfold Receive. simpl. apply sendEnvelopes_panic.
  unfold assemble. by apply envelopeLoop_other.
Qed.

(** X13.  Handling a batch ends in a stop request and a normal return,
    with nothing else done, exactly when the batch holds a termination
    event before which every element is a delivery whose payload
    serializes. *)
Theorem stop_requested_iff (msg : list (BatchItem payload)) (ctx : Context payload) σ :
  sendEnvelopes Serialize T msg ctx σ = (after σ 0 [EvStop (ctx_Self ctx)], Returned tt) ↔
  ∃ rds addr post, msg = (ItemDeliver <$> rds) ++ ItemTerminated addr :: post ∧
                   Forall (serializes Serialize) rds.
Proof.
  split.
  - intros Hres. destruct (assemble Serialize msg) as [s| |p] eqn:Hasm.
    + exfalso. destruct (stream (ew σ)) as [st|] eqn:Hst.
      * destruct (stream_Send T (calls σ)) as [err|] eqn:Hsend.
        -- by rewrite (sendEnvelopes_send_error Serialize T msg ctx σ s st err) in Hres.
        -- rewrite (sendEnvelopes_sent Serialize T msg ctx σ s st) in Hres by done.
           injection Hres as Hcalls _. lia.
      * by rewrite (sendEnvelopes_nil_stream Serialize T msg ctx σ s) in Hres.
    + by eapply envelopeLoop_stop_inv.
    + by rewrite (sendEnvelopes_panic Serialize T msg ctx σ p) in Hres.
  - intros (rds & addr & post & -> & Hall). apply sendEnvelopes_stop.
    unfold assemble. by apply envelopeLoop_stop.
Qed.

(** X14.  On a writer that has a stream, a batch of deliveries that all
    serialize is transmitted whole by exactly one send, which is the only
    transport call; when the send succeeds the handler returns and the
    writer is left as it was.  The batch sent has one envelope per
    delivery. *)
Theorem batch_sent_whole (rds : list (remoteDeliver payload)) (self : PID) (st : nat) σ :
  Forall (serializes Serialize) rds →
  stream (ew σ) = Some st → stream_Send T (calls σ) = None →
  ∃ s, assemble Serialize (ItemDeliver <$> rds) = LoopDone s ∧
    Receive Serialize T
      {| ctx_Message := Batch (ItemDeliver <$> rds); ctx_Self := self |} σ
    = (after σ 1 [EvSend st (RemoteMessage_MessageBatch (batchOf s)) None], Returned tt) ∧
    length (Envelopes (batchOf s)) = length rds ∧
    Forall is_Some (Envelopes (batchOf s)).
Proof.
  intros Hall Hst Hsend.
  destruct (assemble_deliveries Serialize rds Hall) as (s & Hs & Hinv).
  exists s. split; [done|]. split.
  - unfold Receive. simpl. by apply sendEnvelopes_sent.
  - destruct Hinv as (_ & _ & _ & _ & Hlen & Henv). simpl. split; [done|].
    apply Forall_lookup. intros i slot Hslot.
    apply lookup_lt_Some in Hslot as Hlt. rewrite Hlen in Hlt.
    apply lookup_lt_is_Some in Hlt as [rd Hrd].
    destruct (Henv i rd Hrd) as (e & He & _). exists e. congruence.
Qed.

(** X15.  An empty batch is not skipped: on a writer that has a stream it
    is sent as a batch with empty tables and no envelope. *)
Theorem empty_batch_is_sent (self : PID) (st : nat) σ :
  stream (ew σ) = Some st → stream_Send T (calls σ) = None →
  Receive Serialize T {| ctx_Message := Batch []; ctx_Self := self |} σ
  = (after σ 1 [EvSend st (RemoteMessage_MessageBatch
                             {| TypeNames := []; Targets := []; Senders := [];
                                Envelopes := [] |}) None],
     Returned tt).
Proof.
  intros Hst Hsend. unfold Receive. simpl.
  by rewrite (sendEnvelopes_sent Serialize T [] _ σ (initialLoopState 0) st).
Qed.

(** X16.  A writer as the producer makes it has no stream: a batch of
    deliveries handled before any start signal panics on the nil stream,
    after the whole batch was assembled, and no transport call is
    made. *)
Theorem batch_before_start_panics (r : Remote) (addr : string) (self : PID)
    (rds : list (remoteDeliver payload)) :
  Forall (serializes Serialize) rds →
  runActor Serialize T self [Batch (ItemDeliver <$> rds)] (freshMachine r addr)
  = (freshMachine r addr, Panicked PanicNilDereference).
Proof.
  intros Hall.
  destruct (assemble_deliveries Serialize rds Hall) as (s & Hs & _).
  simpl. unfold bind, Receive. simpl.
  by rewrite (sendEnvelopes_nil_stream Serialize T _ _ (freshMachine r addr) s).
Qed.

(** X17.  The stop and restart signals close what the writer holds, the
    send side of the stream before the connection, each only if it is
    set; the handler returns whatever the closes return, and it leaves
    [conn] and [stream] set as they were. *)
Theorem close_is_best_effort (m : Message payload) (self : PID) σ :
  m = actor_Stopped ∨ m = actor_Restarting →
  Receive Serialize T {| ctx_Message := m; ctx_Self := self |} σ
  = (after σ (length (closeEffects T σ)) (closeEffects T σ), Returned tt).
Proof.
  intros [-> | ->]; unfold Receive; simpl; apply closeClientConn_effects.
Qed.

End MoreHandlers.

(** ** Further properties of the connect and of runs *)

Section MoreConnect.

Context {payload : Type}.
Variable Serialize : payload → Z → (list Byte.byte * string) + error.
Variable T : Transport.

Implicit Types σ : Machine payload.

Ltac run_connect :=
  unfold initialize, initializeInternal, doSend, doRecv, bind, ret, panic,
    getWriter, tick, emit, setConn, setStream, after; simpl.

Ltac connect_failed :=
  solve [eexists _, _; split; [done|]; simpl;
         split; [|split; [rewrite closeClientConn_effects; reflexivity|reflexivity]];
         repeat first [apply Forall_cons; split; [by left|]
                      |apply Forall_cons; split; [by right|]
                      |constructor]].

(** X18.  The connect stops at the first step that fails and returns that
    step's own error: a failed dial costs one transport call and leaves
    the writer untouched; a failed stream opening costs two calls and
    leaves [conn] set; a failed send of the connect request costs three
    and a failed read four, with [conn] and [stream] set; a response of
    another variant returns the error "invalid connect response". *)
Theorem connect_returns_cause σ :
  (∀ err, grpc_Dial T (calls σ) = Some err →
     initializeInternal T σ
       = (after σ 1 [EvDial (address (ew σ)) (Some err)], Returned (Some err))) ∧
  (∀ err, grpc_Dial T (calls σ) = None → client_Receive T (S (calls σ)) = Some err →
     ∃ σ', initializeInternal T σ = (σ', Returned (Some err)) ∧
           calls σ' = 2 + calls σ ∧
           conn (ew σ') = Some (calls σ) ∧ stream (ew σ') = stream (ew σ)) ∧
  (∀ err, grpc_Dial T (calls σ) = None → client_Receive T (S (calls σ)) = None →
     stream_Send T (S (S (calls σ))) = Some err →
     ∃ σ', initializeInternal T σ = (σ', Returned (Some err)) ∧
           calls σ' = 3 + calls σ ∧
           conn (ew σ') = Some (calls σ) ∧ stream (ew σ') = Some (S (calls σ))) ∧
  (∀ r, grpc_Dial T (calls σ) = None → client_Receive T (S (calls σ)) = None →
     stream_Send T (S (S (calls σ))) = None →
     stream_Recv T (S (S (S (calls σ)))) = r →
     r ≠ RecvMsg RemoteMessage_ConnectResponse →
     ∃ σ', initializeInternal T σ
             = (σ', Returned (Some (match r with
                                    | RecvErr err => err
                                    | RecvMsg _ => errors_New "invalid connect response"
                                    end))) ∧
           calls σ' = 4 + calls σ ∧
           conn (ew σ') = Some (calls σ) ∧ stream (ew σ') = Some (S (calls σ))).
Proof.
  split; [|split; [|split]].
  - intros err Hd. run_connect. by rewrite Hd.
  - intros err Hd Ho. run_connect. rewrite Hd; simpl. rewrite Ho; simpl. eauto.
  - intros err Hd Ho Hs. run_connect.
    rewrite Hd; simpl. rewrite Ho; simpl. rewrite Hs; simpl. eauto.
  - intros r Hd Ho Hs Hr Hne. run_connect.
    rewrite Hd; simpl. rewrite Ho; simpl. rewrite Hs; simpl. rewrite Hr; simpl.
    destruct r as [[ | | | ]|err]; simpl; eauto. done.
Qed.

(** X19.  The connect never closes anything: when a start fails on a
    writer made by the producer, the handles opened so far are still in
    the writer, and the restart or stop signal that follows closes
    exactly those: nothing after a failed dial, the connection alone
    after a failed stream opening, the stream and then the connection
    after a later failure. *)
Theorem close_after_failed_start (r : Remote) (addr : string) :
  ¬ handshakeOK T 0 →
  ∃ σ1 err,
    initialize T (freshMachine r addr : Machine payload)
      = (σ1, Panicked (PanicError err)) ∧
    Forall (λ e, isConnectCall e = true ∨ e = EvSleep 2) (trace σ1) ∧
    closeClientConn T σ1
      = (after σ1 (length (closeEffects T σ1)) (closeEffects T σ1), Returned tt) ∧
    closeEffects T σ1 =
      match grpc_Dial T 0, client_Receive T 1 with
      | Some _, _ => []
      | None, Some _ => [EvCloseConn 0 (conn_Close T (calls σ1))]
      | None, None => [EvCloseSend 1 (stream_CloseSend T (calls σ1));
                       EvCloseConn 0 (conn_Close T (S (calls σ1)))]
      end.
Proof.
  intros Hnot.
  unfold initialize, initializeInternal, doSend, doRecv, bind, ret, panic,
    getWriter, tick, emit, setConn, setStream; simpl.
  destruct (grpc_Dial T 0) as [e1|] eqn:Hd; simpl; [connect_failed|].
  destruct (client_Receive T 1) as [e2|] eqn:Ho; simpl; [connect_failed|].
  destruct (stream_Send T 2) as [e3|] eqn:Hs; simpl; [connect_failed|].
  destruct (stream_Recv T 3) as [[ | | |]|e4] eqn:Hr; simpl; try connect_failed.
  exfalso. apply Hnot. by repeat split.
Qed.

(** X20.  A start signal whose connect succeeds followed by a batch of
    deliveries that serialize: the batch goes out on the stream just
    opened, as the fifth transport call, after the six effects of the
    connect, and the run returns. *)
Theorem start_then_batch (self : PID) (rds : list (remoteDeliver payload)) σ :
  handshakeOK T (calls σ) → Forall (serializes Serialize) rds →
  stream_Send T (S (S (S (S (calls σ))))) = None →
  ∃ s, assemble Serialize (ItemDeliver <$> rds) = LoopDone s ∧
    runActor Serialize T self [actor_Started; Batch (ItemDeliver <$> rds)] σ
    = ({| ew := {| address := address (ew σ); conn := Some (calls σ);
                   stream := Some (S (calls σ)); remote := remote (ew σ) |};
          calls := S (S (S (S (S (calls σ)))));
          trace := trace σ ++ connectEffects (ew σ) (calls σ) ++
                   [EvSend (S (calls σ)) (RemoteMessage_MessageBatch (batchOf s)) None] |},
       Returned tt).
Proof.
  intros Hok Hall Hsend.
  destruct (assemble_deliveries Serialize rds Hall) as (s & Hs & _).
  exists s. split; [done|].
  simpl. unfold bind at 1. unfold Receive at 1. simpl.
  rewrite (initialize_ok T σ Hok).
  unfold bind, Receive. simpl.
  rewrite (sendEnvelopes_sent Serialize T _ _ _ s (S (calls σ))); [|done|done|done].
  unfold ret, after. simpl. by rewrite <- (assoc_L (++)).
Qed.

Lemma initialize_publishes σ σ' (r : Outcome unit) :
  initialize T σ = (σ', r) →
  address (ew σ') = address (ew σ) ∧
  ∃ evs, trace σ' = trace σ ++ evs ∧
         Forall (publishesOnlyConnected (address (ew σ))) evs.
Proof.
  run_connect.
  destruct (grpc_Dial T (calls σ)) as [e1|]; simpl.
  { intros [= <- <-]. simpl. split; [done|].
    eexists [_; _]. rewrite <- !(assoc_L (++)). split; [done|]. repeat constructor. }
  destruct (client_Receive T (S (calls σ))) as [e2|]; simpl.
  { intros [= <- <-]. simpl. split; [done|].
    eexists [_; _; _]. rewrite <- !(assoc_L (++)). split; [done|]. repeat constructor. }
  destruct (stream_Send T (S (S (calls σ)))) as [e3|]; simpl.
  { intros [= <- <-]. simpl. split; [done|].
    eexists [_; _; _; _]. rewrite <- !(assoc_L (++)). split; [done|]. repeat constructor. }
  destruct (stream_Recv T (S (S (S (calls σ))))) as [[ | | |]|e4]; simpl;
    intros [= <- <-]; simpl; (split; [done|]);
    try solve [eexists [_; _; _; _; _]; rewrite <- !(assoc_L (++));
               split; [done|]; repeat constructor].
  eexists [_; _; _; _; _; _]. rewrite <- !(assoc_L (++)). split; [done|].
  repeat constructor.
Qed.

Lemma Receive_publishes (ctx : Context payload) σ σ' (r : Outcome unit) :
  Receive Serialize T ctx σ = (σ', r) →
  address (ew σ') = address (ew σ) ∧
  ∃ evs, trace σ' = trace σ ++ evs ∧
         Forall (publishesOnlyConnected (address (ew σ))) evs.
Proof.
  unfold Receive. destruct (ctx_Message ctx) as [ | | |a|msg| | ].
  - apply initialize_publishes.
  - rewrite closeClientConn_effects. intros [= <- <-]. split; [done|].
    eexists. split; [done|]. unfold closeEffects.
    destruct (stream (ew σ)), (conn (ew σ)); repeat constructor.
  - rewrite closeClientConn_effects. intros [= <- <-]. split; [done|].
    eexists. split; [done|]. unfold closeEffects.
    destruct (stream (ew σ)), (conn (ew σ)); repeat constructor.
  - unfold emit. intros [= <- <-]. split; [done|].
    eexists. split; [done|]. repeat constructor.
  - destruct (assemble Serialize msg) as [s| |p] eqn:Hasm.
    + destruct (stream (ew σ)) as [st|] eqn:Hst.
      * destruct (stream_Send T (calls σ)) as [err|] eqn:Hres.
        -- rewrite (sendEnvelopes_send_error Serialize T msg ctx σ s st err) by done.
           intros [= <- <-]. split; [done|]. eexists. split; [done|]. repeat constructor.
        -- rewrite (sendEnvelopes_sent Serialize T msg ctx σ s st) by done.
           intros [= <- <-]. split; [done|]. eexists. split; [done|]. repeat constructor.
      * rewrite (sendEnvelopes_nil_stream Serialize T msg ctx σ s) by done.
        intros [= <- <-]. split; [done|]. exists []. by rewrite app_nil_r.
    + rewrite (sendEnvelopes_stop Serialize T msg ctx σ) by done.
      intros [= <- <-]. split; [done|]. eexists. split; [done|]. repeat constructor.
    + rewrite (sendEnvelopes_panic Serialize T msg ctx σ p) by done.
      intros [= <- <-]. split; [done|]. exists []. by rewrite app_nil_r.
  - unfold ret. intros [= <- <-]. split; [done|]. exists []. by rewrite app_nil_r.
  - unfold ret. intros [= <- <-]. split; [done|]. exists []. by rewrite app_nil_r.
Qed.

Lemma runActor_publishes (self : PID) (msgs : list (Message payload)) σ :
  address (ew (runActor Serialize T self msgs σ).1) = address (ew σ) ∧
  ∃ evs, trace (runActor Serialize T self msgs σ).1 = trace σ ++ evs ∧
         Forall (publishesOnlyConnected (address (ew σ))) evs.
Proof.
  revert σ. induction msgs as [|m msgs IH]; intros σ; simpl.
  - split; [done|]. exists []. by rewrite app_nil_r.
  - unfold bind.
    destruct (Receive Serialize T {| ctx_Message := m; ctx_Self := self |} σ)
      as [σ' r] eqn:Hrecv.
    destruct (Receive_publishes _ σ σ' r Hrecv) as (Haddr & evs & Htr & Hevs).
    destruct r as [[]|p]; simpl.
    + destruct (IH σ') as (Haddr' & evs' & Htr' & Hevs').
      split; [congruence|]. exists (evs ++ evs').
      rewrite Htr', Htr, (assoc_L (++)). split; [done|].
      apply Forall_app. split; [done|]. by rewrite <- Haddr.
    + split; [done|]. by exists evs.
Qed.

(** X21.  In every run of a writer made by the producer, whatever the
    messages and the transport, the handlers keep the writer's address
    and publish nothing but the Connected event of that address: the
    Terminated event is never published by the actor itself. *)
Theorem actor_publishes_only_Connected (r : Remote) (addr : string) (self : PID)
    (msgs : list (Message payload)) :
  address (ew (runActor Serialize T self msgs (freshMachine r addr)).1) = addr ∧
  Forall (publishesOnlyConnected addr)
    (trace (runActor Serialize T self msgs (freshMachine r addr)).1).
Proof.
  destruct (runActor_publishes self msgs (freshMachine r addr)) as (Haddr & evs & Htr & Hevs).
  split; [exact Haddr|]. rewrite Htr. exact Hevs.
Qed.

End MoreConnect.

(** ** Concrete runs of the further properties *)

Lemma addToPidLookup_ignores_request_id_witness :
  addToPidLookup (addToPidLookup ∅ (Some (mkPID "10.0.0.2:8090" "T1" 5)) []).2
                 (Some (mkPID "10.0.0.2:8090" "T1" 9))
                 (addToPidLookup ∅ (Some (mkPID "10.0.0.2:8090" "T1" 5)) []).1.2
    = addToPidLookup ∅ (Some (mkPID "10.0.0.2:8090" "T1" 5)) [].
Proof.
  exact (addToPidLookup_ignores_request_id ∅ (mkPID "10.0.0.2:8090" "T1" 5)
           (mkPID "10.0.0.2:8090" "T1" 9) [] eq_refl).
Defined.

Lemma addToLookup_keeps_sync_witness :
  tableInv (addToLookup ∅ "Ping" []).2 (addToLookup ∅ "Ping" []).1.2.
Proof.
  exact (proj1 (addToLookup_keeps_sync ∅ "Ping" [] tableInv_empty)).
Defined.

Lemma no_sender_empty_table_witness :
  ∃ s, assemble exampleSerialize
         [ItemDeliver (exampleDeliver "Ping" (Some (mkPID "10.0.0.2:8090" "T1" 5)) None)]
       = LoopDone s ∧ Senders (batchOf s) = [].
Proof.
  destruct (assemble_deliveries exampleSerialize
              [exampleDeliver "Ping" (Some (mkPID "10.0.0.2:8090" "T1" 5)) None])
    as (s & Hs & _).
  { apply Forall_cons. split; [|constructor].
    eexists. unfold serialized. simpl. reflexivity. }
  exists s. split; [exact Hs|].
  refine (proj1 (no_sender_empty_table exampleSerialize _ s Hs _)).
  apply Forall_cons. split; [reflexivity|constructor].
Defined.

Lemma indices_in_range_witness :
  ∃ s, assemble exampleSerialize (ItemDeliver <$> exampleDeliveries) = LoopDone s ∧
       length (Targets (batchOf s)) ≤ 3.
Proof.
  destruct (assemble_deliveries exampleSerialize exampleDeliveries exampleDeliveries_serialize)
    as (s & Hs & _).
  exists s. split; [exact Hs|].
  exact (proj1 (proj2 (indices_in_range exampleSerialize exampleDeliveries s Hs eq_refl))).
Defined.

Lemma same_target_index_iff_same_key_witness :
  ∃ s e1 e2, assemble exampleSerialize (ItemDeliver <$> exampleDeliveries) = LoopDone s ∧
    Envelopes (batchOf s) !! 0 = Some (Some e1) ∧
    Envelopes (batchOf s) !! 2 = Some (Some e2) ∧
    (Target e1 = Target e2 ↔
     pidKey (mkPID "10.0.0.2:8090" "T1" 5) = pidKey (mkPID "10.0.0.2:8090" "T2" 0)).
Proof.
  destruct (assemble_deliveries exampleSerialize exampleDeliveries exampleDeliveries_serialize)
    as (s & Hs & _ & _ & _ & _ & _ & Henv).
  destruct (Henv 0 _ eq_refl) as (e1 & He1 & _).
  destruct (Henv 2 _ eq_refl) as (e2 & He2 & _).
  exists s, e1, e2. split; [exact Hs|]. split; [exact He1|]. split; [exact He2|].
  exact (proj2 (same_target_index_iff_same_key exampleSerialize exampleDeliveries s 0 2
                  _ _ e1 e2 Hs eq_refl eq_refl eq_refl He1 He2) _ _ eq_refl eq_refl).
Defined.

Lemma same_type_id_iff_same_name_witness :
  ∃ s e1 e2, assemble exampleSerialize (ItemDeliver <$> exampleDeliveries) = LoopDone s ∧
    Envelopes (batchOf s) !! 0 = Some (Some e1) ∧
    Envelopes (batchOf s) !! 1 = Some (Some e2) ∧
    (TypeId e1 = TypeId e2 ↔ Some "Ping" = Some "Ping").
Proof.
  destruct (assemble_deliveries exampleSerialize exampleDeliveries exampleDeliveries_serialize)
    as (s & Hs & _ & _ & _ & _ & _ & Henv).
  destruct (Henv 0 _ eq_refl) as (e1 & He1 & _).
  destruct (Henv 1 _ eq_refl) as (e2 & He2 & _).
  exists s, e1, e2. split; [exact Hs|]. split; [exact He1|]. split; [exact He2|].
  exact (same_type_id_iff_same_name exampleSerialize exampleDeliveries s 0 1
           _ _ e1 e2 Hs eq_refl eq_refl eq_refl He1 He2).
Defined.

Lemma monitor_publishes_per_message_witness :
  monitorLoop "10.0.0.2:8090"
    [RecvMsg RemoteMessage_Other; RecvErr io_EOF; RecvMsg RemoteMessage_Other;
     RecvErr (errors_New "connection reset by peer"); RecvMsg RemoteMessage_Other]
  = (replicate 3 (EndpointTerminatedEvent "10.0.0.2:8090"), Exited).
Proof.
  refine (proj2 (monitor_publishes_per_message "10.0.0.2:8090"
                   [RecvMsg RemoteMessage_Other; RecvErr io_EOF; RecvMsg RemoteMessage_Other]
                   [RecvMsg RemoteMessage_Other]
                   (RecvErr (errors_New "connection reset by peer")) _) eq_refl).
  repeat (apply Forall_cons; split; [reflexivity|]). constructor.
Defined.

Lemma unserializable_payload_aborts_witness :
  Receive exampleSerialize okTransport
    {| ctx_Message := Batch ((ItemDeliver <$> exampleDeliveries)
                             ++ ItemDeliver (exampleDeliver "chan" None None)
                             :: [ItemTerminated "10.0.0.2:8090"]);
       ctx_Self := exampleSelf |} connectedMachine
  = (connectedMachine, Panicked (PanicError (errors_New "msg must be proto.Message"))).
Proof.
  exact (unserializable_payload_aborts exampleSerialize okTransport exampleDeliveries
           (exampleDeliver "chan" None None) _ [ItemTerminated "10.0.0.2:8090"]
           exampleSelf connectedMachine exampleDeliveries_serialize eq_refl).
Defined.

Lemma foreign_element_panics_witness :
  Receive exampleSerialize okTransport
    {| ctx_Message := Batch ((ItemDeliver <$> exampleDeliveries) ++ ItemOther :: []);
       ctx_Self := exampleSelf |} connectedMachine
  = (connectedMachine, Panicked PanicNilDereference).
Proof.
  exact (foreign_element_panics exampleSerialize okTransport exampleDeliveries []
           exampleSelf connectedMachine exampleDeliveries_serialize).
Defined.

Lemma batch_sent_whole_witness :
  ∃ s, Receive exampleSerialize okTransport
         {| ctx_Message := Batch (ItemDeliver <$> exampleDeliveries);
            ctx_Self := exampleSelf |} connectedMachine
       = (after connectedMachine 1 [EvSend 1 (RemoteMessage_MessageBatch (batchOf s)) None],
          Returned tt) ∧
       length (Envelopes (batchOf s)) = 3.
Proof.
  destruct (batch_sent_whole exampleSerialize okTransport exampleDeliveries exampleSelf 1
              connectedMachine exampleDeliveries_serialize eq_refl eq_refl)
    as (s & _ & Hrecv & Hlen & _).
  exists s. split; [exact Hrecv|exact Hlen].
Defined.

Lemma empty_batch_is_sent_witness :
  (Receive exampleSerialize okTransport
     {| ctx_Message := Batch []; ctx_Self := exampleSelf |} connectedMachine).2
  = Returned tt.
Proof.
  rewrite (empty_batch_is_sent exampleSerialize okTransport exampleSelf 1 connectedMachine
             eq_refl eq_refl).
  reflexivity.
Defined.

Lemma batch_before_start_panics_witness :
  runActor exampleSerialize okTransport exampleSelf
    [Batch (ItemDeliver <$> exampleDeliveries)]
    (freshMachine exampleRemote "10.0.0.2:8090")
  = (freshMachine exampleRemote "10.0.0.2:8090", Panicked PanicNilDereference).
Proof.
  exact (batch_before_start_panics exampleSerialize okTransport exampleRemote
           "10.0.0.2:8090" exampleSelf exampleDeliveries exampleDeliveries_serialize).
Defined.

Lemma close_is_best_effort_witness :
  Receive exampleSerialize okTransport
    {| ctx_Message := actor_Restarting; ctx_Self := exampleSelf |} connectedMachine
  = (after connectedMachine 2 [EvCloseSend 1 None; EvCloseConn 0 None], Returned tt).
Proof.
  exact (close_is_best_effort exampleSerialize okTransport actor_Restarting exampleSelf
           connectedMachine (or_intror eq_refl)).
Defined.

Lemma close_after_failed_start_witness :
  ∃ σ1 err,
    initialize wrongVariantTransport
      (freshMachine exampleRemote "10.0.0.2:8090" : Machine string)
      = (σ1, Panicked (PanicError err)) ∧
    closeEffects wrongVariantTransport σ1
      = [EvCloseSend 1 None; EvCloseConn 0 None].
Proof.
  destruct (close_after_failed_start (payload := string) wrongVariantTransport
              exampleRemote "10.0.0.2:8090")
    as (σ1 & err & Hinit & _ & _ & Hclose).
  - intros (_ & _ & _ & Hr). discriminate Hr.
  - exists σ1, err. split; [exact Hinit|exact Hclose].
Defined.

Lemma start_then_batch_witness :
  ∃ σ', runActor exampleSerialize okTransport exampleSelf
          [actor_Started; Batch (ItemDeliver <$> exampleDeliveries)]
          (freshMachine exampleRemote "10.0.0.2:8090")
        = (σ', Returned tt) ∧ calls σ' = 5.
Proof.
  destruct (start_then_batch exampleSerialize okTransport exampleSelf exampleDeliveries
              (freshMachine exampleRemote "10.0.0.2:8090"))
    as (s & _ & Hrun).
  - repeat split.
  - exact exampleDeliveries_serialize.
  - reflexivity.
  - eexists. split; [exact Hrun|reflexivity].
Defined.
